(** * spectre/fingerprint: pitch classification, candidate selection and keys

    A shallow embedding of [fingerprint/fingerprint.go].

    Number model.  A Go [float64] is modelled as a real number: the
    arithmetic of the source ([+], [-], [*], [/], [<], [>], [math.Log]) is
    read as exact arithmetic, so NaN, the infinities and rounding error are
    outside the model.  A Go [int] is a 64-bit signed integer, modelled as
    [Z] with its wrap-around written out ([wrap64]); a [byte] is a [Z] in
    [0, 256).  The conversion [int(x)] of a float truncates toward zero.

    Binary64.  Where the outcome of a float64 computation at one given
    input matters to the last bit, the computation is also written over
    IEEE 754 binary64 numbers ([float], whose operations are those of the
    hardware) and evaluated: [int_of_f64] and [audioKey_f64].  [math.Log]
    has no binary64 counterpart here, so the pitch classifier is stated
    over the reals only, for positive frequencies and away from the
    rounding boundaries.

    Slices.  A slice is a list; a slice that may be [nil] is an [option].
    Reading [s[i]] out of range panics, and a function that can panic
    returns a [res].

    What lies outside the file.  [sort.Sort], [math.Log], [fmt.Sprintf],
    the SHA-1 hash, the two spectral estimators, the frame type and the order
    in which [range] visits a map belong to other packages or to the
    runtime.  [sort.Sort] is modelled by insertion sort and [math.Log] by
    the real logarithm; the others are parameters. *)

From Stdlib Require Import Reals Lra Lia ZArith List String.
From Stdlib Require Import Floats.PrimFloat Floats.SpecFloat Floats.FloatOps.
From stdpp Require Import base option list sorting gmap.

Local Open Scope Z_scope.

(** ** Constants of the package *)

Definition REQUIRED_CANDIDATES : Z := 4.
Definition LOWER_FREQ_CUTOFF : R := 0%R.
Definition LOWER_POWER_CUTOFF : R := 100%R.
Definition TIME_DELTA_THRESHOLD : R := 0.2%R.

Definition SA_PWELCH : Z := 1.
Definition SA_BESPOKE : Z := 2.

Definition A_NOTE : Z := 0.
Definition AS_NOTE : Z := 1.
Definition B_NOTE : Z := 2.
Definition C_NOTE : Z := 3.
Definition CS_NOTE : Z := 4.
Definition D_NOTE : Z := 5.
Definition DS_NOTE : Z := 6.
Definition E_NOTE : Z := 7.
Definition F_NOTE : Z := 8.
Definition FS_NOTE : Z := 9.
Definition G_NOTE : Z := 10.
Definition GS_NOTE : Z := 11.
Definition MAX_NOTE : Z := 12.

Definition LOGNA : R := 0.05776226504666185940%R.

(** ** Go's numeric conversions *)

(** Comparisons of two floats, as booleans. *)
Definition Rgtb (x y : R) : bool := if Rlt_dec y x then true else false.
Definition Rltb (x y : R) : bool := if Rlt_dec x y then true else false.

Definition min_int64 : Z := - 2 ^ 63.
Definition max_int64 : Z := 2 ^ 63 - 1.

(** Signed 64-bit wrap-around of integer arithmetic. *)
Definition wrap64 (z : Z) : Z := (z + 2 ^ 63) mod 2 ^ 64 - 2 ^ 63.

(** Truncation toward zero. *)
Definition Rtrunc (x : R) : Z :=
  if Rle_dec 0 x then Int_part x else - Int_part (- x).

(** [int(x)] for a float64 [x].  Go leaves the conversion of a value that
    does not fit implementation-defined; on amd64 the instruction yields the
    smallest int64, which is what is written here. *)
Definition int_of_float (x : R) : Z :=
  let z := Rtrunc x in
  if (min_int64 <=? z) && (z <=? max_int64) then z else min_int64.

(** [float64(n)] for an int [n]. *)
Definition float_of_int (n : Z) : R := IZR n.

(** [byte(n)] for an int [n]: the low eight bits. *)
Definition byte_of_int (n : Z) : Z := n mod 256.

(** ** Pitch classifier *)

(** [math.Log] is the real logarithm [ln].  On a frequency that is not
    positive the two differ (NaN or -Inf against 0); [transcribe] reads the
    class of such a frequency only for a comparison whose outcome the
    frequency floor then discards.  What is stated of the class as a
    function of the frequency is stated for positive frequencies. *)
Definition noteSteps (freq : R) : R := (ln (freq / 440.0) / LOGNA)%R.

Definition freqNote (freq : R) : Z :=
  let n := Z.rem (int_of_float (noteSteps freq + 0.5)) MAX_NOTE in
  if n <? 0 then n + MAX_NOTE else n.

(** ** Frequency quantizer *)

(** Over the reals.  In float64 the product [int(...) * 10] converts back
    exactly only while it is below 2^53, so what is stated of the quantizer
    is stated for frequencies of magnitude at most 1e15. *)
Definition fuzzyFreq (f : R) : R :=
  float_of_int (wrap64 (int_of_float (f / 10 + 0.5) * 10)).

(** ** Panics and results

    A Go function either returns or panics; [log.Panicf] and an index out of
    range are the panics of this package. *)

Inductive panic : Type :=
  | IndexOutOfRange
  | UnrecognisedAnalyser (n : Z)
  | UnknownMethod (s : string).

Inductive res (A : Type) : Type :=
  | Ok (a : A)
  | Panic (p : panic).
Arguments Ok {A} a.
Arguments Panic {A} p.

#[global] Instance res_ret : MRet res := fun A a => Ok a.

#[global] Instance res_bind : MBind res := fun A B k m =>
  match m with
  | Ok a => k a
  | Panic p => Panic p
  end.

(** [l[i]] on a slice: a negative or too large index panics. *)
Definition index {A : Type} (l : list A) (i : Z) : res A :=
  if i <? 0 then Panic IndexOutOfRange
  else match l !! Z.to_nat i with
       | Some x => Ok x
       | None => Panic IndexOutOfRange
       end.

(** ** Data *)

Record candidate : Type := mkCandidate {
  candidate_Freq : R;
  candidate_Pxx : R
}.

Record Chroma : Type := mkChroma {
  Chroma_Note : Z;
  Chroma_Freq : R;
  Chroma_Strength : R
}.

(** A slice that may be [nil] is an [option]; [None] is [nil]. *)
Abbreviation Transcription := (list Chroma).
Abbreviation candidates := (list candidate).

Record Fingerprint : Type := mkFingerprint {
  Fingerprint_Key : list Z;
  Fingerprint_Timestamp : R;
  Fingerprint_Candidates : option candidates;
  Fingerprint_Transcription : option Transcription
}.

(** The zero value of [Chroma], which [make] fills a slice with. *)
Definition zeroChroma : Chroma := mkChroma 0 0 0.

(** [len] of a slice that may be nil. *)
Definition len {A : Type} (s : option (list A)) : Z :=
  match s with
  | None => 0
  | Some l => Z.of_nat (length l)
  end.

(** ** sort.Sort

    [sort.Sort] is the standard library's; on a short slice it is an
    insertion sort, which moves each element left while [Less] holds between
    it and its left neighbour.  On the sorted prefix that is the position
    found by scanning from the left, as written here. *)

Fixpoint insertSorted {A : Type} (less : A → A → bool) (x : A) (l : list A)
  : list A :=
  match l with
  | [] => [x]
  | y :: l' => if less x y then x :: l else y :: insertSorted less x l'
  end.

Definition sort_Sort {A : Type} (less : A → A → bool) (l : list A) : list A :=
  fold_left (fun acc x => insertSorted less x acc) l [].

(** [sort.Reverse] swaps the arguments of [Less]. *)
Definition sort_Reverse {A : Type} (less : A → A → bool) : A → A → bool :=
  fun x y => less y x.

Definition ByPxx_Less (x y : candidate) : bool :=
  Rltb (candidate_Pxx x) (candidate_Pxx y).

Definition ByFreq_Less (x y : candidate) : bool :=
  Rltb (candidate_Freq x) (candidate_Freq y).

(** ** Transcriber *)

(** The body of the loop of [transcribe] for the sample [(v, p)]; the state
    is the table [t] and [chromaCount]. *)
Definition transcribeStep (v p : R) (st : Transcription * Z)
  : res (Transcription * Z) :=
  let '(t, chromaCount) := st in
  let n := freqNote v in
  c ← index t n;
  if Rgtb p (Chroma_Strength c) then
    if Rgtb p LOWER_POWER_CUTOFF && Rgtb v LOWER_FREQ_CUTOFF then
      Ok (<[Z.to_nat n := mkChroma n (fuzzyFreq v) p]> t,
          wrap64 (chromaCount + 1))
    else Ok st
  else Ok st.

(** [for i, v := range freqs] with [Pxx[i]] read in step: the two slices are
    walked together, and [Pxx] running out first is the index panic. *)
Fixpoint transcribeLoop (freqs Pxx : list R) (st : Transcription * Z)
  : res (Transcription * Z) :=
  match freqs with
  | [] => Ok st
  | v :: freqs' =>
      match Pxx with
      | [] => Panic IndexOutOfRange
      | p :: Pxx' =>
          st' ← transcribeStep v p st;
          transcribeLoop freqs' Pxx' st'
      end
  end.

Definition transcribe (freqs Pxx : list R) : res (option Transcription) :=
  st ← transcribeLoop freqs Pxx (replicate (Z.to_nat MAX_NOTE) zeroChroma, 0);
  Ok (if snd st =? 0 then None else Some (fst st)).

(** ** Candidate selectors *)

(** The filtering loop of [getTopCandidates]: [freqs[i]] is read only when
    the power passes its floor. *)
Fixpoint topLoop (Pxx freqs : list R) (cs : candidates) : res candidates :=
  match Pxx with
  | [] => Ok cs
  | v :: Pxx' =>
      if Rgtb v LOWER_POWER_CUTOFF then
        match freqs with
        | [] => Panic IndexOutOfRange
        | f :: freqs' =>
            topLoop Pxx' freqs'
              (if Rgtb f LOWER_FREQ_CUTOFF
               then cs ++ [mkCandidate (fuzzyFreq f) v] else cs)
        end
      else topLoop Pxx' (tail freqs) cs
  end.

Definition getTopCandidates (freqs Pxx : list R) : res (option candidates) :=
  cs ← topLoop Pxx freqs [];
  let cs := sort_Sort (sort_Reverse ByPxx_Less) cs in
  if Z.of_nat (length cs) <? REQUIRED_CANDIDATES then Ok None
  else
    let topCandidates := take (Z.to_nat REQUIRED_CANDIDATES) cs in
    Ok (Some (sort_Sort (sort_Reverse ByFreq_Less) topCandidates)).

(** The local function [freqBand] of [getBandedCandidates], over the reals.
    Just below the upper edge of a band the float64 sum [a / b * 4 + 0.5]
    can round up to the next integer; what is stated of the band as a
    function of the frequency keeps 0.001 Hz away from that edge. *)
Definition freqBand (f : R) : Z :=
  let uLimit := (11025.0 / 2.0)%R in
  let a := (f - LOWER_FREQ_CUTOFF)%R in
  let b := (uLimit - LOWER_FREQ_CUTOFF)%R in
  int_of_float (a / b * 4 + 0.5).

(** [m[k]] on a [map[int]float64]: a missing key reads as zero. *)
Definition mapGet (m : gmap Z R) (k : Z) : R := default 0%R (m !! k).

(** The filtering loop of [getBandedCandidates]; the state is
    [(highScores, highPoints)]. *)
Fixpoint bandLoop (Pxx freqs : list R) (st : gmap Z R * gmap Z R)
  : res (gmap Z R * gmap Z R) :=
  match Pxx with
  | [] => Ok st
  | v :: Pxx' =>
      if Rgtb v LOWER_POWER_CUTOFF then
        match freqs with
        | [] => Panic IndexOutOfRange
        | f :: freqs' =>
            bandLoop Pxx' freqs'
              (if Rgtb f LOWER_FREQ_CUTOFF then
                 let fb := freqBand f in
                 if Rgtb v (mapGet (fst st) fb)
                 then (<[fb := v]> (fst st), <[fb := f]> (snd st))
                 else st
               else st)
        end
      else bandLoop Pxx' (tail freqs) st
  end.

Section Externals.

(** What the package takes from elsewhere: the frame type of package
    [pcm] with its timestamp, the two estimators of package [analysis]
    (each returns [(Pxx, freqs)]), [fmt.Sprintf("%e", _)], the SHA-1
    digest of the text written to the hash, and the order in which one
    [range] statement visits the entries of a map, which Go leaves
    unspecified. *)
Context {Buffer : Type}.
Variable Buffer_Timestamp : Buffer → R.
Variable PwelchAnalysis OverlapAnalysis : Buffer → Z → list R * list R.
Variable Sprintf_e : R → string.
Variable sha1_Sum : string → list Z.
Variable mapRange : gmap Z R → list (Z * R).

(** Generate a key from the transcription; [optPowerKey] is fixed.  This
    is the function over the reals; [audioKey_f64] below is the same
    function over binary64. *)
Definition audioKey (t : option Transcription) : option (list Z) :=
  let optPowerKey := true in
  match t with
  | None => None
  | Some t =>
      if optPowerKey then
        let maxPxx :=
          fold_left (fun maxPxx v =>
                       if Rgtb (Chroma_Strength v) maxPxx
                       then Chroma_Strength v else maxPxx) t 0%R in
        Some (map (fun v =>
                     byte_of_int
                       (int_of_float
                          (Chroma_Strength v / maxPxx * 8.0 + 0.5))) t)
      else
        Some (sha1_Sum
                (fold_left (fun s v => (s ++ Sprintf_e (Chroma_Freq v))%string)
                   t EmptyString))
  end.

(** The hash over the candidates' frequencies, as in both candidate
    branches of [New]. *)
Definition hashKey (cs : candidates) : list Z :=
  sha1_Sum
    (fold_left (fun s v => (s ++ Sprintf_e (candidate_Freq v))%string)
       cs EmptyString).

Definition getBandedCandidates (freqs Pxx : list R) : res candidates :=
  '(highScores, highPoints) ← bandLoop Pxx freqs (∅, ∅);
  let cs :=
    fold_left (fun cs kv =>
                 cs ++ [mkCandidate (fuzzyFreq (snd kv))
                          (mapGet highScores (fst kv))])
      (mapRange highPoints) [] in
  Ok (sort_Sort (sort_Reverse ByFreq_Less) cs).

(** The first switch of [New]: the estimator that was asked for. *)
Definition spectralAnalysis (sampleBlock : Buffer) (sampleRate : Z)
    (optSpectralAnalyser : Z) : res (list R * list R) :=
  if optSpectralAnalyser =? SA_PWELCH
  then Ok (PwelchAnalysis sampleBlock sampleRate)
  else if optSpectralAnalyser =? SA_BESPOKE
  then Ok (OverlapAnalysis sampleBlock sampleRate)
  else Panic (UnrecognisedAnalyser optSpectralAnalyser).

(** [New] with the local [optMethod] as an argument, so that each branch
    of its second switch can be spoken of. *)
Definition New_with (optMethod : string) (sampleBlock : Buffer)
    (sampleRate : Z) (optSpectralAnalyser : Z) (optVerbose : bool)
  : res (option Fingerprint) :=
  '(Pxx, freqs) ←
    spectralAnalysis sampleBlock sampleRate optSpectralAnalyser;
  if String.eqb optMethod "transcribe" then
    transcription ← transcribe freqs Pxx;
    match audioKey transcription with
    | None => Ok None
    | Some key =>
        Ok (Some (mkFingerprint key (Buffer_Timestamp sampleBlock)
                    None transcription))
    end
  else if String.eqb optMethod "topfreqs" then
    cs ← getTopCandidates freqs Pxx;
    if len cs <? REQUIRED_CANDIDATES then Ok None
    else
      Ok (Some (mkFingerprint (hashKey (default [] cs))
                  (Buffer_Timestamp sampleBlock) cs None))
  else if String.eqb optMethod "freqbands" then
    cs ← getBandedCandidates freqs Pxx;
    if Z.of_nat (length cs) <? REQUIRED_CANDIDATES then Ok None
    else
      Ok (Some (mkFingerprint (hashKey cs)
                  (Buffer_Timestamp sampleBlock) (Some cs) None))
  else Panic (UnknownMethod optMethod).

(** [New] as the source has it: [optMethod] is "transcribe". *)
Definition New (sampleBlock : Buffer) (sampleRate : Z)
    (optSpectralAnalyser : Z) (optVerbose : bool)
  : res (option Fingerprint) :=
  New_with "transcribe" sampleBlock sampleRate optSpectralAnalyser
    optVerbose.

End Externals.

(** ** The power key over binary64

    [audioKey] once more, with the float64 arithmetic of the source as
    IEEE 754 binary64 arithmetic, rounding included. *)

(** [int(x)] for a binary64 [x]: truncation toward zero; a value that does
    not fit, an infinity or a NaN gives the smallest int64, as on amd64. *)
Definition int_of_f64 (x : float) : Z :=
  match Prim2SF x with
  | S754_zero _ => 0
  | S754_finite s m e =>
      let mag := if 0 <=? e then Z.pos m * 2 ^ e else Z.pos m / 2 ^ (- e) in
      let z := if s then - mag else mag in
      if (min_int64 <=? z) && (z <=? max_int64) then z else min_int64
  | S754_infinity _ | S754_nan => min_int64
  end.

Record Chroma64 : Type := mkChroma64 {
  Chroma64_Note : Z;
  Chroma64_Freq : float;
  Chroma64_Strength : float
}.

Definition audioKey_f64 (Sprintf_e : float → string)
    (sha1_Sum : string → list Z) (t : option (list Chroma64))
  : option (list Z) :=
  let optPowerKey := true in
  match t with
  | None => None
  | Some t =>
      if optPowerKey then
        let maxPxx :=
          fold_left (fun maxPxx v =>
                       if PrimFloat.ltb maxPxx (Chroma64_Strength v)
                       then Chroma64_Strength v else maxPxx) t 0%float in
        Some (map (fun v =>
                     byte_of_int
                       (int_of_f64
                          (Chroma64_Strength v / maxPxx * 8 + 0.5)%float)) t)
      else
        Some (sha1_Sum
                (fold_left (fun s v => (s ++ Sprintf_e (Chroma64_Freq v))%string)
                   t EmptyString))
  end.

(** The value of a binary64 number as a fraction, numerator and
    denominator. *)
Definition f64_exact (x : float) : Z * Z :=
  match Prim2SF x with
  | S754_finite s m e =>
      let n := if s then Z.neg m else Z.pos m in
      if 0 <=? e then (n * 2 ^ e, 1) else (n, 2 ^ (- e))
  | _ => (0, 1)
  end.

(** The real number that a finite binary64 number stands for. *)
Definition f64_val (x : float) : R :=
  (IZR (fst (f64_exact x)) / IZR (snd (f64_exact x)))%R.

(** ** The remaining functions of the file *)

(** [note.String]: the name of a note; [None] is the [log.Panicf] of the
    default case. *)
Definition note_String (n : Z) : option string :=
  if n =? A_NOTE then Some "A"%string
  else if n =? AS_NOTE then Some "A#"%string
  else if n =? B_NOTE then Some "B"%string
  else if n =? C_NOTE then Some "C"%string
  else if n =? CS_NOTE then Some "C#"%string
  else if n =? D_NOTE then Some "D"%string
  else if n =? DS_NOTE then Some "D#"%string
  else if n =? E_NOTE then Some "E"%string
  else if n =? F_NOTE then Some "F"%string
  else if n =? FS_NOTE then Some "F#"%string
  else if n =? G_NOTE then Some "G"%string
  else if n =? GS_NOTE then Some "G#"%string
  else None.

(** [Len] and [Swap] of [ByPxx] and [ByFreq], which are the same for both:
    [a[i], a[j] = a[j], a[i]] reads both elements, then writes them. *)
Definition candidates_Len (a : candidates) : Z := Z.of_nat (length a).

Definition candidates_Swap (a : candidates) (i j : Z) : res candidates :=
  aj ← index a j;
  ai ← index a i;
  Ok (<[Z.to_nat j := ai]> (<[Z.to_nat i := aj]> a)).

(** The local variables of [logSamples]. *)
Record logStats : Type := mkLogStats {
  log_top : R;
  log_bottom : R;
  log_avg : R;
  log_topf : R;
  log_bottomf : R;
  log_count : Z
}.

(** The values that [logSamples] hands to [log.Printf], in the order of
    the format. *)
Record logLine : Type := mkLogLine {
  line_count : Z;
  line_topf : R;
  line_top : R;
  line_bottomf : R;
  line_bottom : R;
  line_avg : R
}.

(** The body of the loop of [logSamples] for an admissible sample. *)
Definition logStep (f x : R) (s : logStats) : logStats :=
  let s1 :=
    if Rgtb x (log_top s)
    then mkLogStats x (log_bottom s) (log_avg s) f (log_bottomf s)
           (log_count s)
    else s in
  let s2 :=
    if Rltb x (log_bottom s1)
    then mkLogStats (log_top s1) x (log_avg s1) (log_topf s1) f
           (log_count s1)
    else s1 in
  mkLogStats (log_top s2) (log_bottom s2) (log_avg s2 + x) (log_topf s2)
    (log_bottomf s2) (wrap64 (log_count s2 + 1)).

Fixpoint logLoop (Pxx freqs : list R) (s : logStats) : res logStats :=
  match Pxx with
  | [] => Ok s
  | x :: Pxx' =>
      if Rgtb x LOWER_POWER_CUTOFF then
        match freqs with
        | [] => Panic IndexOutOfRange
        | f :: freqs' =>
            logLoop Pxx' freqs'
              (if Rgtb f LOWER_FREQ_CUTOFF then logStep f x s else s)
        end
      else logLoop Pxx' (tail freqs) s
  end.

(** [logSamples]: what it logs, [None] when it logs nothing. *)
Definition logSamples (verbose : bool) (freqs Pxx : list R)
  : res (option logLine) :=
  if negb verbose then Ok None
  else
    s ← logLoop Pxx freqs (mkLogStats 0 (-1.0) 0 0 0 0);
    if 0 <? log_count s
    then Ok (Some (mkLogLine (log_count s) (log_topf s) (log_top s)
                     (log_bottomf s) (log_bottom s)
                     (log_avg s / float_of_int (Z.of_nat (length Pxx)))))
    else Ok None.

(** ** Reference notions

    The notions the properties below are stated with, written from their
    mathematical meaning rather than from the code. *)

(** Rounding to the nearest integer, halves upward: [floor (x + 1/2)]. *)
Definition roundHalfUp (x : R) : Z := Int_part (x + 0.5).

(** The pitch class of a frequency: the rounded semitone distance from
    440 Hz, reduced modulo 12 into [0, 11]. *)
Definition classify_spec (freq : R) : Z :=
  roundHalfUp (noteSteps freq) mod MAX_NOTE.

(** The nearest multiple of 10, halves upward. *)
Definition quantize_spec (f : R) : R := IZR (roundHalfUp (f / 10) * 10).

(** A transcription as the data model has it: twelve bins, none with a
    negative strength (a bin is empty, strength 0, or holds the power of a
    sample that passed the power floor). *)
Definition wf_Transcription (t : Transcription) : Prop :=
  length t = 12%nat ∧ Forall (λ c, (0 <= Chroma_Strength c)%R) t.

(** [m] is the largest strength of [t]. *)
Definition max_strength (t : Transcription) (m : R) : Prop :=
  Forall (λ c, (Chroma_Strength c <= m)%R) t ∧
  Exists (λ c, Chroma_Strength c = m) t.

(** [key] is the power key of [t] whose largest strength is [m]: one byte
    per bin, twelve in all, in bin order, each [strength / m * 8] rounded to
    the nearest integer and within [0, 8], with 8 for a bin of strength
    [m]. *)
Definition powerKey_of (t : Transcription) (m : R) (key : list Z) : Prop :=
  length key = 12%nat ∧
  key = map (λ c, roundHalfUp (Chroma_Strength c / m * 8)) t ∧
  Forall (λ b, 0 <= b <= 8) key ∧
  (∀ (i : nat) (c : Chroma),
     t !! i = Some c → Chroma_Strength c = m → key !! i = Some 8).

(** The transcription of the power-key example: strengths
    [0, 8, 4, 0, ..., 0] in pitch-class order. *)
Definition example_Transcription : Transcription :=
  [mkChroma 0 0 0; mkChroma 1 0 8; mkChroma 2 0 4; mkChroma 3 0 0;
   mkChroma 4 0 0; mkChroma 5 0 0; mkChroma 6 0 0; mkChroma 7 0 0;
   mkChroma 8 0 0; mkChroma 9 0 0; mkChroma 10 0 0; mkChroma 11 0 0].

(** What [transcribe] keeps true of its table: twelve bins, no negative
    strength, and a bin above the power floor once the counter has moved. *)
Definition transcribeInv (st : Transcription * Z) : Prop :=
  wf_Transcription (fst st) ∧
  (snd st = 0 ∨
   ∃ c, c ∈ fst st ∧ (LOWER_POWER_CUTOFF < Chroma_Strength c)%R).

(** The samples [(frequency, power)] that pass both floors, in sample
    order. *)
Fixpoint admissibleSamples (freqs Pxx : list R) : list (R * R) :=
  match freqs, Pxx with
  | f :: freqs', v :: Pxx' =>
      (if Rgtb v LOWER_POWER_CUTOFF && Rgtb f LOWER_FREQ_CUTOFF
       then [(f, v)] else [])
      ++ admissibleSamples freqs' Pxx'
  | _, _ => []
  end.

(** Their candidates: the quantized frequency with the power. *)
Definition admissibleCandidates (freqs Pxx : list R) : candidates :=
  map (λ fv, mkCandidate (fuzzyFreq (fst fv)) (snd fv))
    (admissibleSamples freqs Pxx).

(** Descending order by a key. *)
Definition descBy {A : Type} (key : A → R) : relation A :=
  λ x y, (key y <= key x)%R.

(** The candidate that [getBandedCandidates] appends for one entry of
    [highPoints]. *)
Definition bandCandidate (highScores : gmap Z R) (kv : Z * R) : candidate :=
  mkCandidate (fuzzyFreq (snd kv)) (mapGet highScores (fst kv)).

(** An order of visiting a map's entries: each entry once. *)
Definition rangeOrder (mapRange : gmap Z R → list (Z * R)) : Prop :=
  ∀ m, mapRange m ≡ₚ map_to_list m.

(** Five samples of power 200, one in each of the bands 0 to 4. *)
Definition fiveBands_freqs : list R := [300; 1400; 2800; 4100; 5200]%R.
Definition fiveBands_Pxx : list R := [200; 200; 200; 200; 200]%R.


(** A frame with two samples on either side of the boundary between bands
    0 and 1 that quantize to the same frequency 690. *)
Definition tie_freqs : list R := [689; 689.5; 2800; 4100]%R.
Definition tie_Pxx : list R := [200; 300; 200; 200]%R.

(** What the two maps of [getBandedCandidates] hold once the samples [seen]
    have been processed: under a band index, the frequency and the power of
    one sample of that band, and no seen sample of the band has more
    power. *)
Definition bandInv (seen : list (R * R)) (st : gmap Z R * gmap Z R) : Prop :=
  (∀ k f, snd st !! k = Some f →
     freqBand f = k ∧ ∃ v, fst st !! k = Some v ∧ (f, v) ∈ seen) ∧
  (∀ k v, fst st !! k = Some v → ∃ f, snd st !! k = Some f) ∧
  (∀ f v, (f, v) ∈ seen →
     ∃ v', fst st !! freqBand f = Some v' ∧ (v <= v')%R).

(** What the table of [transcribe] holds once the admissible samples
    [seen] have been processed: a bin is still the zero value, or it carries
    its own index as note together with the quantized frequency and the
    power of a seen sample of its pitch class; and no seen sample has more
    power than the bin of its pitch class. *)
Definition tableInv (seen : list (R * R)) (t : Transcription) : Prop :=
  length t = 12%nat ∧
  (∀ (i : nat) (c : Chroma),
     t !! i = Some c →
     c = zeroChroma ∨
     (Chroma_Note c = Z.of_nat i ∧
      ∃ f, Chroma_Freq c = fuzzyFreq f ∧ freqNote f = Z.of_nat i ∧
           (f, Chroma_Strength c) ∈ seen)) ∧
  (∀ f p, (f, p) ∈ seen →
     ∃ c, t !! Z.to_nat (freqNote f) = Some c ∧ (p <= Chroma_Strength c)%R).

(** Two powers above the power floor, 186.6319440758923 and
    2986.1111052142774 as Go prints them; the second is sixteen times the
    first plus one unit in the last place. *)
Definition misrounded_low : float := 0x1.75438e2c85b78p+7%float.
Definition misrounded_max : float := 0x1.75438e2c85b79p+11%float.

(** A transcription with these strengths in the bins A and A#, the other
    bins empty. *)
Definition misrounded_Transcription : list Chroma64 :=
  mkChroma64 A_NOTE 440%float misrounded_low
  :: mkChroma64 AS_NOTE 470%float misrounded_max
  :: replicate 10 (mkChroma64 0 0%float 0%float).

(** The transcription of the power-key example over binary64. *)
Definition example_Transcription64 : list Chroma64 :=
  mkChroma64 0 0%float 0%float :: mkChroma64 1 0%float 8%float
  :: mkChroma64 2 0%float 4%float
  :: map (λ n, mkChroma64 n 0%float 0%float) [3; 4; 5; 6; 7; 8; 9; 10; 11].

(** The sum of the powers of a list of samples. *)
Definition sumPowers (l : list (R * R)) : R :=
  foldr (λ fv a, (snd fv + a)%R) 0%R l.

(** What the variables of [logSamples] hold once the admissible samples
    [seen] have been counted. *)
Definition logInv (seen : list (R * R)) (s : logStats) : Prop :=
  log_avg s = sumPowers seen ∧
  log_count s = Z.of_nat (length seen) ∧
  (∀ f x, (f, x) ∈ seen → (x <= log_top s)%R) ∧
  ((seen = [] ∧ log_top s = 0%R ∧ log_topf s = 0%R) ∨
   (log_topf s, log_top s) ∈ seen).

(** ** Facts about the conversions *)

Lemma Int_part_eq (x : R) (z : Z) :
  (IZR z <= x < IZR z + 1)%R → Int_part x = z.
Proof.
  intros [H1 H2]. symmetry. apply Int_part_spec. lra.
Qed.

Lemma Int_part_bounds (x : R) : (IZR (Int_part x) <= x < IZR (Int_part x) + 1)%R.
Proof.
  destruct (base_Int_part x) as [H1 H2]. lra.
Qed.

Lemma Rtrunc_nonneg (x : R) (z : Z) :
  (0 <= x)%R → (IZR z <= x < IZR z + 1)%R → Rtrunc x = z.
Proof.
  intros H0 H. unfold Rtrunc. destruct (Rle_dec 0 x); [|lra].
  by apply Int_part_eq.
Qed.

Lemma Rtrunc_neg (x : R) (z : Z) :
  (x < 0)%R → (IZR z - 1 < x <= IZR z)%R → Rtrunc x = z.
Proof.
  intros H0 H. unfold Rtrunc. destruct (Rle_dec 0 x); [lra|].
  rewrite (Int_part_eq (- x) (- z)); [lia|].
  rewrite opp_IZR. lra.
Qed.


(** ** Bounds on the exponential *)

Lemma exp_double_lower (a c : R) :
  (0 <= c)%R → (c <= exp a)%R → (c * c <= exp (2 * a))%R.
Proof.
  intros Hc H. replace (2 * a)%R with (a + a)%R by lra.
  rewrite exp_plus. pose proof (exp_pos a). nra.
Qed.

(** [(1 + x/32)^32 <= exp x], by five doublings; [c0 .. c5] are the
    successive rational lower bounds. *)
Lemma exp_lower_32 (x c0 c1 c2 c3 c4 c5 : R) :
  (0 <= c0 <= 1 + x / 32)%R →
  (0 <= c1 <= c0 * c0)%R → (0 <= c2 <= c1 * c1)%R →
  (0 <= c3 <= c2 * c2)%R → (0 <= c4 <= c3 * c3)%R →
  (c5 <= c4 * c4)%R →
  (c5 <= exp x)%R.
Proof.
  intros H0 H1 H2 H3 H4 H5.
  assert (E0 : (c0 <= exp (x / 32))%R).
  { pose proof (exp_ineq1_le (x / 32)). lra. }
  assert (E1 : (c1 <= exp (x / 16))%R).
  { pose proof (exp_double_lower (x / 32) c0 ltac:(lra) E0) as E.
    replace (2 * (x / 32))%R with (x / 16)%R in E by lra. lra. }
  assert (E2 : (c2 <= exp (x / 8))%R).
  { pose proof (exp_double_lower (x / 16) c1 ltac:(lra) E1) as E.
    replace (2 * (x / 16))%R with (x / 8)%R in E by lra. lra. }
  assert (E3 : (c3 <= exp (x / 4))%R).
  { pose proof (exp_double_lower (x / 8) c2 ltac:(lra) E2) as E.
    replace (2 * (x / 8))%R with (x / 4)%R in E by lra. lra. }
  assert (E4 : (c4 <= exp (x / 2))%R).
  { pose proof (exp_double_lower (x / 4) c3 ltac:(lra) E3) as E.
    replace (2 * (x / 4))%R with (x / 2)%R in E by lra. lra. }
  pose proof (exp_double_lower (x / 2) c4 ltac:(lra) E4) as E.
  replace (2 * (x / 2))%R with x in E by lra. lra.
Qed.

(** [ln (1/2)] lies between -12.5 and -11.5 semitone widths. *)
Lemma ln_half_bounds :
  (-12.5 * LOGNA < ln (220.0 / 440.0) < -11.5 * LOGNA)%R.
Proof.
  unfold LOGNA. split.
  - (* 2 < exp (12.5 * LOGNA) *)
    assert (H : (2.03 <= exp (12.5 * 0.05776226504666185940))%R).
    { apply (exp_lower_32 _ 1.0225 1.0455 1.093 1.194 1.425 2.03); lra. }
    apply exp_lt_inv. rewrite exp_ln by lra.
    replace (-12.5 * 0.05776226504666185940)%R
      with (- (12.5 * 0.05776226504666185940))%R by lra.
    rewrite exp_Ropp.
    pose proof (exp_pos (12.5 * 0.05776226504666185940)) as Hp.
    apply (Rmult_lt_reg_r (exp (12.5 * 0.05776226504666185940))); [done|].
    rewrite Rinv_l by lra. lra.
  - assert (H : (0.505 <= exp (-11.5 * 0.05776226504666185940))%R).
    { apply (exp_lower_32 _ 0.9792 0.9588 0.9192 0.8449 0.7138 0.505); lra. }
    apply exp_lt_inv. rewrite exp_ln by lra. lra.
Qed.

(** ** Pitch classifier *)

Lemma noteSteps_220 : (-12.5 < noteSteps 220.0 < -11.5)%R.
Proof.
  destruct ln_half_bounds as [H1 H2]. unfold noteSteps.
  assert (HL : (0 < LOGNA)%R) by (unfold LOGNA; lra).
  split.
  - apply (Rmult_lt_reg_r LOGNA); [done|].
    unfold Rdiv. rewrite Rmult_assoc, Rinv_l by lra. lra.
  - apply (Rmult_lt_reg_r LOGNA); [done|].
    unfold Rdiv at 1. rewrite Rmult_assoc, Rinv_l by lra. lra.
Qed.

Lemma int_of_float_small (x : R) (z : Z) :
  Rtrunc x = z → min_int64 <= z <= max_int64 → int_of_float x = z.
Proof.
  intros <- [H1 H2]. unfold int_of_float. cbv zeta.
  apply Z.leb_le in H1, H2. by rewrite H1, H2.
Qed.

(** C1: at 220 Hz the semitone distance is -12 (within rounding), the
    truncating conversion of [-12 + 0.5] gives -11, and the classifier
    answers A# where the pitch class of 220 Hz, one octave below 440 Hz,
    is A. *)
Theorem freqNote_220_is_A_sharp :
  freqNote 220.0 = AS_NOTE ∧ classify_spec 220.0 = A_NOTE.
Proof.
  pose proof noteSteps_220 as [H1 H2]. split.
  - unfold freqNote.
    rewrite (int_of_float_small _ (-11)); [reflexivity| |done].
    apply Rtrunc_neg; simpl; lra.
  - unfold classify_spec, roundHalfUp.
    rewrite (Int_part_eq _ (-12)); [reflexivity|]. simpl. lra.
Qed.

(** The remainder of Go's [%], lifted into [0, 11] by the [n < 0] branch,
    is the mathematical modulo. *)
Lemma rem_lifted_is_mod (z : Z) :
  (let n := Z.rem z MAX_NOTE in if n <? 0 then n + MAX_NOTE else n)
  = z mod MAX_NOTE.
Proof.
  unfold MAX_NOTE. cbv zeta. destruct (Z.ltb_spec (Z.rem z 12) 0);
    Z.to_euclidean_division_equations; lia.
Qed.

Lemma freqNote_range (f : R) : 0 <= freqNote f < MAX_NOTE.
Proof.
  unfold freqNote. rewrite rem_lifted_is_mod. by apply Z.mod_pos_bound.
Qed.

Lemma Int_part_le_lt (x : R) (a b : Z) :
  (IZR a <= x < IZR b)%R → a <= Int_part x < b.
Proof.
  intros [H1 H2]. destruct (Int_part_bounds x) as [H3 H4]. split.
  - apply Z.lt_succ_r, lt_IZR. rewrite succ_IZR. lra.
  - apply lt_IZR. lra.
Qed.

(** In exact arithmetic: at or above half a semitone below 440 Hz the
    classifier rounds the semitone distance to the nearest integer, halves
    upward, and reduces it modulo 12. *)
Lemma freqNote_from_half_below (f : R) :
  (-0.5 <= noteSteps f < 2 ^ 62)%R → freqNote f = classify_spec f.
Proof.
  intros [H1 H2]. unfold freqNote. rewrite rem_lifted_is_mod.
  unfold classify_spec, roundHalfUp. f_equal.
  assert (Hz : 0 <= Int_part (noteSteps f + 0.5) < 2 ^ 62 + 1).
  { apply Int_part_le_lt. rewrite (pow_IZR 2 62) in H2.
    change (Z.of_nat 62) with 62 in H2. rewrite plus_IZR. lra. }
  apply int_of_float_small.
  - unfold Rtrunc. destruct (Rle_dec 0 (noteSteps f + 0.5)); [done|lra].
  - unfold min_int64, max_int64. lia.
Qed.


Lemma freqNote_440 : freqNote 440.0 = A_NOTE.
Proof.
  unfold freqNote, noteSteps.
  replace (440.0 / 440.0)%R with 1%R by lra.
  rewrite ln_1. unfold Rdiv. rewrite Rmult_0_l.
  rewrite (int_of_float_small _ 0); [reflexivity| |done].
  apply Rtrunc_nonneg; simpl; lra.
Qed.

Lemma noteSteps_466_16 : (0.5 <= noteSteps 466.16 < 1.5)%R.
Proof.
  unfold noteSteps.
  assert (HL : (0 < LOGNA)%R) by (unfold LOGNA; lra).
  assert (Hln : (0.5 * LOGNA <= ln (466.16 / 440.0) < 1.5 * LOGNA)%R).
  { unfold LOGNA. split.
    - pose proof (exp_ineq1_le (- (0.5 * 0.05776226504666185940))) as Hlo.
      rewrite exp_Ropp in Hlo.
      pose proof (exp_pos (0.5 * 0.05776226504666185940)) as Hp.
      assert (Hup : (exp (0.5 * 0.05776226504666185940) <= 1.03)%R).
      { apply (Rmult_le_reg_r (/ exp (0.5 * 0.05776226504666185940))).
        - by apply Rinv_0_lt_compat.
        - rewrite Rinv_r by lra. lra. }
      destruct (Rle_dec (0.5 * 0.05776226504666185940)
                  (ln (466.16 / 440.0))) as [|Hn]; [done|].
      apply Rnot_le_lt, exp_increasing in Hn.
      rewrite exp_ln in Hn by lra. lra.
    - apply exp_lt_inv. rewrite exp_ln by lra.
      pose proof (exp_ineq1_le (1.5 * 0.05776226504666185940)). lra. }
  destruct Hln as [Ha Hb]. split.
  - apply (Rmult_le_reg_r LOGNA); [done|].
    unfold Rdiv at 1. rewrite Rmult_assoc, Rinv_l by lra. lra.
  - apply (Rmult_lt_reg_r LOGNA); [done|].
    unfold Rdiv at 1. rewrite Rmult_assoc, Rinv_l by lra. lra.
Qed.

Lemma freqNote_466_16 : freqNote 466.16 = AS_NOTE.
Proof.
  pose proof noteSteps_466_16 as [H1 H2]. unfold freqNote.
  rewrite (int_of_float_small _ 1); [reflexivity| |done].
  apply Rtrunc_nonneg; simpl; lra.
Qed.

(** ** Frequency quantizer *)

Lemma wrap64_small (z : Z) : min_int64 <= z <= max_int64 → wrap64 z = z.
Proof.
  unfold min_int64, max_int64, wrap64. intros H.
  rewrite Z.mod_small by lia. lia.
Qed.

Lemma fuzzyFreq_eval (f : R) (z : Z) :
  0 <= z <= 900000000000000000 → (IZR z <= f / 10 + 0.5 < IZR z + 1)%R →
  fuzzyFreq f = IZR (z * 10).
Proof.
  intros Hz Hx. unfold fuzzyFreq, float_of_int.
  rewrite (int_of_float_small _ z).
  - rewrite wrap64_small; [done|]. unfold min_int64, max_int64. lia.
  - apply Rtrunc_nonneg; [|done]. pose proof (IZR_le 0 z ltac:(lia)). lra.
  - unfold min_int64, max_int64. lia.
Qed.

(** C6: for a frequency from -5 up to 1e15 -- every call of the quantizer
    passes a frequency above the frequency floor 0 -- the quantizer returns
    [floor (f/10 + 0.5) * 10], a multiple of 10 at distance at most 5 from
    [f]; 445.0 goes to 450.0 and 444.9 to 440.0. *)
Theorem fuzzyFreq_rounds_half_up :
  (∀ f : R, (-5 <= f <= 1000000000000000)%R →
     fuzzyFreq f = quantize_spec f ∧ (Rabs (fuzzyFreq f - f) <= 5)%R) ∧
  fuzzyFreq 445.0 = 450.0%R ∧ fuzzyFreq 444.9 = 440.0%R.
Proof.
  split; [|split].
  - intros f [H1 H2]. unfold quantize_spec, roundHalfUp.
    destruct (Int_part_bounds (f / 10 + 0.5)) as [H3 H4].
    assert (Hz : 0 <= Int_part (f / 10 + 0.5) < 900000000000000001).
    { apply Int_part_le_lt. lra. }
    rewrite (fuzzyFreq_eval f (Int_part (f / 10 + 0.5))); [|lia|lra].
    split; [done|]. rewrite mult_IZR. apply Rabs_le. lra.
  - rewrite (fuzzyFreq_eval _ 45); [rewrite mult_IZR; lra|lia|lra].
  - rewrite (fuzzyFreq_eval _ 44); [rewrite mult_IZR; lra|lia|lra].
Qed.

Lemma fuzzyFreq_rounds_half_up_witness :
  fuzzyFreq 123 = quantize_spec 123 ∧ (Rabs (fuzzyFreq 123 - 123) <= 5)%R.
Proof.
  apply (proj1 fuzzyFreq_rounds_half_up 123%R). lra.
Defined.

(** ** Transcriber *)

Lemma Rgtb_true (x y : R) : Rgtb x y = true ↔ (y < x)%R.
Proof. unfold Rgtb. destruct (Rlt_dec y x); split; (done || lra). Qed.

Lemma Rgtb_false (x y : R) : Rgtb x y = false ↔ (x <= y)%R.
Proof. unfold Rgtb. destruct (Rlt_dec y x); split; (done || lra). Qed.

Lemma Rltb_true (x y : R) : Rltb x y = true ↔ (x < y)%R.
Proof. unfold Rltb. destruct (Rlt_dec x y); split; (done || lra). Qed.

Lemma Rltb_false (x y : R) : Rltb x y = false ↔ (y <= x)%R.
Proof. unfold Rltb. destruct (Rlt_dec x y); split; (done || lra). Qed.

(** The table has twelve bins and the classifier answers within them: the
    bounds check of [t[n]] never fires. *)
Lemma index_freqNote (t : Transcription) (v : R) :
  length t = 12%nat →
  ∃ c, t !! Z.to_nat (freqNote v) = Some c ∧ index t (freqNote v) = Ok c.
Proof.
  intros Hlen. pose proof (freqNote_range v) as [H0 H1].
  unfold MAX_NOTE in H1. unfold index.
  destruct (Z.ltb_spec (freqNote v) 0) as [|_]; [lia|].
  destruct (lookup_lt_is_Some_2 t (Z.to_nat (freqNote v))) as [c Hc]; [lia|].
  exists c. by rewrite Hc.
Qed.

(** What one iteration of the loop does. *)
Lemma transcribeStep_cases (t : Transcription) (count : Z) (v p : R) :
  length t = 12%nat →
  ∃ c, t !! Z.to_nat (freqNote v) = Some c ∧
    (((Chroma_Strength c < p)%R ∧ (LOWER_POWER_CUTOFF < p)%R ∧
      (LOWER_FREQ_CUTOFF < v)%R ∧
      transcribeStep v p (t, count)
      = Ok (<[Z.to_nat (freqNote v) := mkChroma (freqNote v) (fuzzyFreq v) p]> t,
            wrap64 (count + 1)))
     ∨
     (¬ ((Chroma_Strength c < p)%R ∧ (LOWER_POWER_CUTOFF < p)%R ∧
         (LOWER_FREQ_CUTOFF < v)%R) ∧
      transcribeStep v p (t, count) = Ok (t, count))).
Proof.
  intros Hlen. destruct (index_freqNote t v Hlen) as (c & Hc & Hi).
  exists c. split; [done|]. unfold transcribeStep. rewrite Hi. simpl.
  destruct (Rgtb p (Chroma_Strength c)) eqn:E1.
  - destruct (Rgtb p LOWER_POWER_CUTOFF) eqn:E2;
      destruct (Rgtb v LOWER_FREQ_CUTOFF) eqn:E3; simpl;
      rewrite ?Rgtb_true, ?Rgtb_false in *; first [left; done | right; split; [lra|done]].
  - rewrite Rgtb_false in E1. right. split; [lra|done].
Qed.

Lemma transcribeStep_length (t t' : Transcription) (count count' : Z) (v p : R) :
  length t = 12%nat → transcribeStep v p (t, count) = Ok (t', count') →
  length t' = 12%nat.
Proof.
  intros Hlen Hs.
  destruct (transcribeStep_cases t count v p Hlen) as (c & _ & [(_ & _ & _ & E)|[_ E]]);
    rewrite E in Hs; injection Hs as <- <-; [by rewrite length_insert|done].
Qed.

Lemma transcribeStep_rejected (t : Transcription) (count : Z) (v p : R) :
  length t = 12%nat → (p <= LOWER_POWER_CUTOFF)%R →
  transcribeStep v p (t, count) = Ok (t, count).
Proof.
  intros Hlen Hp.
  destruct (transcribeStep_cases t count v p Hlen)
    as (c & _ & [(_ & H & _)|[_ E]]); [lra|done].
Qed.

Lemma transcribeLoop_silent (freqs : list R) :
  ∀ (Pxx : list R) (t : Transcription) (count : Z),
    length t = 12%nat → (length freqs ≤ length Pxx)%nat →
    Forall (λ p, (p <= LOWER_POWER_CUTOFF)%R) Pxx →
    transcribeLoop freqs Pxx (t, count) = Ok (t, count).
Proof.
  induction freqs as [|v freqs IH]; intros Pxx t count Hlen Hle Hall; [done|].
  destruct Pxx as [|p Pxx]; simpl in Hle; [lia|].
  apply Forall_cons in Hall as [Hp Hall]. cbn [transcribeLoop].
  rewrite transcribeStep_rejected by done.
  apply IH; [done|lia|done].
Qed.

Section Assembler.

Context {Buffer : Type}.
Variable Buffer_Timestamp : Buffer → R.
Variable PwelchAnalysis OverlapAnalysis : Buffer → Z → list R * list R.
Variable Sprintf_e : R → string.
Variable sha1_Sum : string → list Z.
Variable mapRange : gmap Z R → list (Z * R).

(** C4: when no sample's power is above the power floor, [transcribe]
    returns nil, and [New], whose pipeline is the transcription one,
    returns no fingerprint. *)
Theorem silent_frame_no_fingerprint (freqs Pxx : list R) :
  (length freqs ≤ length Pxx)%nat →
  Forall (λ p, (p <= LOWER_POWER_CUTOFF)%R) Pxx →
  transcribe freqs Pxx = Ok None ∧
  ∀ (sampleBlock : Buffer) (sampleRate optSpectralAnalyser : Z)
    (optVerbose : bool),
    spectralAnalysis PwelchAnalysis OverlapAnalysis sampleBlock sampleRate
      optSpectralAnalyser = Ok (Pxx, freqs) →
    New Buffer_Timestamp PwelchAnalysis OverlapAnalysis Sprintf_e sha1_Sum
      mapRange sampleBlock sampleRate optSpectralAnalyser optVerbose = Ok None.
Proof.
  intros Hle Hall.
  assert (Ht : transcribe freqs Pxx = Ok None).
  { unfold transcribe. rewrite transcribeLoop_silent; done. }
  split; [done|]. intros sampleBlock sampleRate a verbose Ha.
  unfold New, New_with. rewrite Ha. simpl. by rewrite Ht.
Qed.

End Assembler.

Lemma silent_frame_no_fingerprint_witness :
  transcribe [440%R; 880%R] [50%R; 100%R] = Ok None ∧
  New (λ b : R, b) (λ _ _, ([50%R; 100%R], [440%R; 880%R]))
    (λ _ _, ([], [])) (λ _, EmptyString) (λ _, [])
    map_to_list 0%R 11025 SA_PWELCH false = Ok None.
Proof.
  assert (Hle : (length [440%R; 880%R] ≤ length [50%R; 100%R])%nat)
    by (simpl; lia).
  assert (Hall : Forall (λ p, (p <= LOWER_POWER_CUTOFF)%R) [50%R; 100%R])
    by (unfold LOWER_POWER_CUTOFF; repeat constructor; lra).
  split.
  - apply (silent_frame_no_fingerprint (Buffer:=R) (λ b, b)
             (λ _ _, ([50%R; 100%R], [440%R; 880%R])) (λ _ _, ([], []))
             (λ _, EmptyString) (λ _, []) map_to_list _ _ Hle Hall).
  - apply (proj2 (silent_frame_no_fingerprint (Buffer:=R) (λ b, b)
                    (λ _ _, ([50%R; 100%R], [440%R; 880%R])) (λ _ _, ([], []))
                    (λ _, EmptyString) (λ _, []) map_to_list _ _ Hle Hall)).
    reflexivity.
Defined.

(** A bin's strength never goes down. *)
Lemma transcribeStep_bin_monotone (t t' : Transcription) (count count' : Z)
    (v p : R) (n : nat) (c : Chroma) :
  length t = 12%nat → transcribeStep v p (t, count) = Ok (t', count') →
  t !! n = Some c →
  ∃ c', t' !! n = Some c' ∧ (Chroma_Strength c <= Chroma_Strength c')%R.
Proof.
  intros Hlen Hs Hn.
  destruct (transcribeStep_cases t count v p Hlen)
    as (c0 & Hc0 & [(Hlt & _ & _ & E)|[_ E]]);
    rewrite E in Hs; injection Hs as <- <-.
  - destruct (decide (n = Z.to_nat (freqNote v))) as [->|Hne].
    + exists (mkChroma (freqNote v) (fuzzyFreq v) p). split.
      * apply list_lookup_insert_eq. by eapply lookup_lt_Some.
      * simpl. rewrite Hn in Hc0. injection Hc0 as ->. lra.
    + exists c. split; [|lra]. by rewrite list_lookup_insert_ne.
  - exists c. split; [done|lra].
Qed.

Lemma transcribeLoop_bin_monotone (freqs : list R) :
  ∀ (Pxx : list R) (t t' : Transcription) (count count' : Z) (n : nat)
    (c : Chroma),
    length t = 12%nat → transcribeLoop freqs Pxx (t, count) = Ok (t', count') →
    t !! n = Some c →
    length t' = 12%nat ∧
    ∃ c', t' !! n = Some c' ∧ (Chroma_Strength c <= Chroma_Strength c')%R.
Proof.
  induction freqs as [|v freqs IH]; intros Pxx t t' count count' n c Hlen Hl Hn.
  - injection Hl as <- <-. split; [done|]. exists c. split; [done|lra].
  - destruct Pxx as [|p Pxx]; [done|]. cbn [transcribeLoop] in Hl.
    destruct (transcribeStep v p (t, count)) as [[t1 count1]|] eqn:Hs; [|done].
    destruct (transcribeStep_bin_monotone _ _ _ _ _ _ _ _ Hlen Hs Hn)
      as (c1 & Hc1 & Hle1).
    pose proof (transcribeStep_length _ _ _ _ _ _ Hlen Hs) as Hlen1.
    destruct (IH Pxx t1 t' count1 count' n c1 Hlen1 Hl Hc1)
      as (Hlen' & c' & Hc' & Hle').
    split; [done|]. exists c'. split; [done|lra].
Qed.

(** C7: a step that changes the table had a power strictly above the
    strength recorded in its bin; and once a sample of power [p] has been
    seen, a later sample of the same pitch class and the same power leaves
    table and counter as they are, whatever came in between. *)
Theorem first_seen_wins :
  (∀ (t t' : Transcription) (count count' : Z) (v p : R),
     length t = 12%nat →
     transcribeStep v p (t, count) = Ok (t', count') →
     (t', count') ≠ (t, count) →
     ∃ c, t !! Z.to_nat (freqNote v) = Some c ∧ (Chroma_Strength c < p)%R) ∧
  (∀ (t : Transcription) (count : Z) (v1 v2 p : R) (fmid pmid : list R)
     (st1 : Transcription * Z),
     length t = 12%nat → (LOWER_FREQ_CUTOFF < v1)%R →
     freqNote v1 = freqNote v2 →
     transcribeLoop (v1 :: fmid) (p :: pmid) (t, count) = Ok st1 →
     transcribeStep v2 p st1 = Ok st1).
Proof.
  split.
  - intros t t' count count' v p Hlen Hs Hne.
    destruct (transcribeStep_cases t count v p Hlen)
      as (c & Hc & [(Hlt & _ & _ & E)|[_ E]]).
    + by exists c.
    + rewrite E in Hs. injection Hs as <- <-. done.
  - intros t count v1 v2 p fmid pmid [t1 count1] Hlen Hv1 Hnote Hl.
    cbn [transcribeLoop] in Hl.
    destruct (transcribeStep v1 p (t, count)) as [[t0 count0]|] eqn:Hs; [|done].
    pose proof (transcribeStep_length _ _ _ _ _ _ Hlen Hs) as Hlen0.
    (* after the first sample: its bin holds at least [p], or [p] is not
       above the floor *)
    assert (H0 : (p <= LOWER_POWER_CUTOFF)%R ∨
                 ∃ c, t0 !! Z.to_nat (freqNote v1) = Some c ∧
                      (p <= Chroma_Strength c)%R).
    { destruct (transcribeStep_cases t count v1 p Hlen)
        as (c & Hc & [(Hlt & _ & _ & E)|[Hn E]]);
        rewrite E in Hs; injection Hs as <- <-.
      - right. exists (mkChroma (freqNote v1) (fuzzyFreq v1) p). split.
        + apply list_lookup_insert_eq. by eapply lookup_lt_Some.
        + simpl. lra.
      - destruct (Rle_dec p LOWER_POWER_CUTOFF); [by left|].
        right. exists c. split; [done|].
        destruct (Rle_dec p (Chroma_Strength c)); [done|].
        exfalso. apply Hn. lra. }
    destruct H0 as [Hp|(c & Hc & Hle)].
    + assert (Hlen1 : length t1 = 12%nat).
      { destruct (lookup_lt_is_Some_2 t0 0) as [c0 Hc0]; [lia|].
        by destruct (transcribeLoop_bin_monotone _ _ _ _ _ _ _ _ Hlen0 Hl Hc0). }
      by apply transcribeStep_rejected.
    + destruct (transcribeLoop_bin_monotone _ _ _ _ _ _ _ _ Hlen0 Hl Hc)
        as (Hlen1 & c' & Hc' & Hle').
      destruct (transcribeStep_cases t1 count1 v2 p Hlen1)
        as (c2 & Hc2 & [(Hlt & _)|[_ E]]); [|done].
      rewrite <- Hnote, Hc' in Hc2. injection Hc2 as ->. lra.
Qed.

Lemma transcribeStep_first_440 :
  transcribeStep 440.0 200 (replicate 12 zeroChroma, 0)
  = Ok (<[0%nat := mkChroma 0 (fuzzyFreq 440.0) 200]> (replicate 12 zeroChroma),
        1).
Proof.
  destruct (transcribeStep_cases (replicate 12 zeroChroma) 0 440.0 200
              eq_refl) as (c & Hc & [(_ & _ & _ & E)|[Hn E]]).
  - rewrite E, freqNote_440. reflexivity.
  - exfalso. apply Hn. rewrite freqNote_440 in Hc. injection Hc as <-.
    unfold LOWER_POWER_CUTOFF, LOWER_FREQ_CUTOFF. simpl. lra.
Qed.

Lemma first_seen_wins_witness :
  (∃ c, replicate 12 zeroChroma !! Z.to_nat (freqNote 440.0) = Some c ∧
        (Chroma_Strength c < 200)%R) ∧
  transcribeStep 440.0 200
    (<[0%nat := mkChroma 0 (fuzzyFreq 440.0) 200]> (replicate 12 zeroChroma),
     1)
  = Ok (<[0%nat := mkChroma 0 (fuzzyFreq 440.0) 200]> (replicate 12 zeroChroma),
        1).
Proof.
  split.
  - apply (proj1 first_seen_wins (replicate 12 zeroChroma) _ 0 1 440.0%R 200%R
             eq_refl transcribeStep_first_440).
    intros H. by injection H.
  - apply (proj2 first_seen_wins (replicate 12 zeroChroma) 0 440.0%R 440.0%R
             200%R [] []).
    + reflexivity.
    + unfold LOWER_FREQ_CUTOFF. lra.
    + reflexivity.
    + cbn [transcribeLoop]. by rewrite transcribeStep_first_440.
Defined.

(** ** Assembler: configuration errors and the banded branch *)

Lemma bandLoop_total (Pxx : list R) :
  ∀ (freqs : list R) (st : gmap Z R * gmap Z R),
    (length Pxx ≤ length freqs)%nat → ∃ st', bandLoop Pxx freqs st = Ok st'.
Proof.
  induction Pxx as [|v Pxx IH]; intros freqs st Hle; [by exists st|].
  destruct freqs as [|f freqs]; simpl in Hle; [lia|].
  cbn [bandLoop tail]. destruct (Rgtb v LOWER_POWER_CUTOFF); apply IH; lia.
Qed.

Section AssemblerBranches.

Context {Buffer : Type}.
Variable Buffer_Timestamp : Buffer → R.
Variable PwelchAnalysis OverlapAnalysis : Buffer → Z → list R * list R.
Variable Sprintf_e : R → string.
Variable sha1_Sum : string → list Z.
Variable mapRange : gmap Z R → list (Z * R).

Let New_with' :=
  New_with Buffer_Timestamp PwelchAnalysis OverlapAnalysis Sprintf_e sha1_Sum
    mapRange.

(** C8: with an estimator selection other than the two known ones [New]
    panics before anything else; with a known estimator and a method name
    that none of the three cases matches it panics at the default case.  In
    neither case is a fingerprint or nil returned. *)
Theorem unrecognised_selection_panics (optMethod : string)
    (sampleBlock : Buffer) (sampleRate optSpectralAnalyser : Z)
    (optVerbose : bool) :
  (optSpectralAnalyser ≠ SA_PWELCH → optSpectralAnalyser ≠ SA_BESPOKE →
   New_with' optMethod sampleBlock sampleRate optSpectralAnalyser optVerbose
   = Panic (UnrecognisedAnalyser optSpectralAnalyser)) ∧
  (optMethod ≠ "transcribe"%string → optMethod ≠ "topfreqs"%string →
   optMethod ≠ "freqbands"%string →
   New_with' optMethod sampleBlock sampleRate optSpectralAnalyser optVerbose
   = Panic (if (optSpectralAnalyser =? SA_PWELCH)
               || (optSpectralAnalyser =? SA_BESPOKE)
            then UnknownMethod optMethod
            else UnrecognisedAnalyser optSpectralAnalyser)).
Proof.
  unfold New_with', New_with, spectralAnalysis. split.
  - intros H1 H2. apply Z.eqb_neq in H1, H2. by rewrite H1, H2.
  - intros H1 H2 H3. apply String.eqb_neq in H1, H2, H3.
    destruct (optSpectralAnalyser =? SA_PWELCH);
      [|destruct (optSpectralAnalyser =? SA_BESPOKE)]; simpl;
      try destruct (PwelchAnalysis _ _); try destruct (OverlapAnalysis _ _);
      simpl; by rewrite ?H1, ?H2, ?H3.
Qed.

(** C10: in the "freqbands" branch a fingerprint is returned exactly when
    the banded selector yields at least [REQUIRED_CANDIDATES] candidates,
    and nil otherwise; the selector itself returns its list whatever its
    length. *)
Theorem banded_pipeline_requires_four :
  (∀ (sampleBlock : Buffer) (sampleRate optSpectralAnalyser : Z)
     (optVerbose : bool) (freqs Pxx : list R) (cs : candidates),
     spectralAnalysis PwelchAnalysis OverlapAnalysis sampleBlock sampleRate
       optSpectralAnalyser = Ok (Pxx, freqs) →
     getBandedCandidates mapRange freqs Pxx = Ok cs →
     ((Z.of_nat (length cs) < REQUIRED_CANDIDATES →
       New_with' "freqbands" sampleBlock sampleRate optSpectralAnalyser
         optVerbose = Ok None) ∧
      (REQUIRED_CANDIDATES <= Z.of_nat (length cs) →
       New_with' "freqbands" sampleBlock sampleRate optSpectralAnalyser
         optVerbose
       = Ok (Some (mkFingerprint (hashKey Sprintf_e sha1_Sum cs)
                     (Buffer_Timestamp sampleBlock) (Some cs) None))))) ∧
  (∀ freqs Pxx : list R,
     (length Pxx ≤ length freqs)%nat →
     ∃ cs, getBandedCandidates mapRange freqs Pxx = Ok cs).
Proof.
  split.
  - intros sampleBlock sampleRate a verbose freqs Pxx cs Ha Hcs.
    unfold New_with', New_with. rewrite Ha. simpl. rewrite Hcs. simpl.
    split; intros H.
    + apply Z.ltb_lt in H. by rewrite H.
    + apply Z.ltb_ge in H. by rewrite H.
  - intros freqs Pxx Hle. unfold getBandedCandidates.
    destruct (bandLoop_total Pxx freqs (∅, ∅) Hle) as [[hs hp] ->].
    simpl. eauto.
Qed.

End AssemblerBranches.

Lemma unrecognised_selection_panics_witness :
  New_with (λ b : R, b) (λ _ _, ([], [])) (λ _ _, ([], [])) (λ _, EmptyString)
    (λ _, []) map_to_list "bogus" 0%R 11025 7 false
  = Panic (UnrecognisedAnalyser 7) ∧
  New_with (λ b : R, b) (λ _ _, ([], [])) (λ _ _, ([], [])) (λ _, EmptyString)
    (λ _, []) map_to_list "bogus" 0%R 11025 SA_PWELCH false
  = Panic (UnknownMethod "bogus").
Proof.
  split.
  - apply (proj1 (unrecognised_selection_panics (Buffer:=R) (λ b, b)
                    (λ _ _, ([], [])) (λ _ _, ([], [])) (λ _, EmptyString)
                    (λ _, []) map_to_list "bogus" 0%R 11025 7 false)); done.
  - apply (proj2 (unrecognised_selection_panics (Buffer:=R) (λ b, b)
                    (λ _ _, ([], [])) (λ _ _, ([], [])) (λ _, EmptyString)
                    (λ _, []) map_to_list "bogus" 0%R 11025 SA_PWELCH false));
      done.
Defined.

Lemma getBandedCandidates_nil : getBandedCandidates map_to_list [] [] = Ok [].
Proof. reflexivity. Qed.


(** ** Power key *)

(** The loop that finds [maxPxx]. *)
Lemma maxPxx_fold (t : Transcription) :
  ∀ a : R,
    let r := fold_left (λ maxPxx v, if Rgtb (Chroma_Strength v) maxPxx
                                    then Chroma_Strength v else maxPxx) t a in
    (a <= r)%R ∧ Forall (λ c, (Chroma_Strength c <= r)%R) t ∧
    (r = a ∨ Exists (λ c, Chroma_Strength c = r) t).
Proof.
  induction t as [|c t IH]; intros a; cbn [fold_left].
  - split; [lra|]. split; [constructor|by left].
  - destruct (Rgtb (Chroma_Strength c) a) eqn:E.
    + apply Rgtb_true in E.
      destruct (IH (Chroma_Strength c)) as (H1 & H2 & H3).
      split; [lra|]. split; [by constructor|]. right.
      destruct H3 as [->|H3]; [by left|by right].
    + apply Rgtb_false in E. destruct (IH a) as (H1 & H2 & H3).
      split; [lra|]. split; [constructor; [lra|done]|].
      destruct H3 as [H3|H3]; [by left|right; by right].
Qed.

Lemma maxPxx_is_max (t : Transcription) (m : R) :
  max_strength t m → (0 < m)%R →
  fold_left (λ maxPxx v, if Rgtb (Chroma_Strength v) maxPxx
                         then Chroma_Strength v else maxPxx) t 0%R = m.
Proof.
  intros [Hle Hex] Hm. destruct (maxPxx_fold t 0%R) as (H1 & H2 & H3).
  cbv zeta in *.
  set (r := fold_left _ t 0%R) in *.
  apply Exists_exists in Hex as (c & Hc & Hcm).
  rewrite Forall_forall in Hle, H2. pose proof (H2 c Hc) as Hcr.
  destruct H3 as [H3|H3].
  - lra.
  - apply Exists_exists in H3 as (c' & Hc' & Hcr'). pose proof (Hle c' Hc'). lra.
Qed.

Lemma div_unit_interval (s m : R) :
  (0 <= s <= m)%R → (0 < m)%R → (0 <= s / m <= 1)%R.
Proof.
  intros [H0 H1] Hm. pose proof (Rinv_0_lt_compat m Hm) as Hi.
  unfold Rdiv. split.
  - by apply Rmult_le_pos; [|lra].
  - rewrite <- (Rinv_r m) by lra. apply Rmult_le_compat_r; lra.
Qed.

(** One byte of the key. *)
Lemma key_byte (s m : R) :
  (0 <= s <= m)%R → (0 < m)%R →
  let b := byte_of_int (int_of_float (s / m * 8.0 + 0.5)) in
  b = roundHalfUp (s / m * 8) ∧ 0 <= b <= 8 ∧ (s = m → b = 8).
Proof.
  intros Hs Hm. destruct (div_unit_interval s m Hs Hm) as [Hq0 Hq1].
  cbv zeta. replace (s / m * 8.0)%R with (s / m * 8)%R by lra.
  unfold roundHalfUp. set (x := (s / m * 8 + 0.5)%R).
  assert (Hx : (0.5 <= x <= 8.5)%R) by (unfold x; lra).
  assert (Hz : 0 <= Int_part x < 9) by (apply Int_part_le_lt; lra).
  rewrite (int_of_float_small x (Int_part x)).
  - unfold byte_of_int. rewrite Z.mod_small by lia.
    split; [done|]. split; [lia|]. intros ->.
    apply Int_part_eq. unfold x, Rdiv. rewrite Rinv_r by lra. lra.
  - unfold Rtrunc. destruct (Rle_dec 0 x); [done|lra].
  - unfold min_int64, max_int64. lia.
Qed.

Lemma roundHalfUp_IZR (x : R) (z : Z) : x = IZR z → roundHalfUp x = z.
Proof. intros ->. unfold roundHalfUp. apply Int_part_eq. lra. Qed.

Lemma transcribeStep_inv (v p : R) (st st' : Transcription * Z) :
  transcribeInv st → transcribeStep v p st = Ok st' → transcribeInv st'.
Proof.
  destruct st as [t count]. intros [[Hlen Hpos] Hcount] Hs.
  destruct (transcribeStep_cases t count v p Hlen)
    as (c & Hc & [(_ & Hp & _ & E)|[_ E]]);
    rewrite E in Hs; injection Hs as <-; [|done].
  assert (Hlt : (Z.to_nat (freqNote v) < length t)%nat)
    by (by eapply lookup_lt_Some).
  split; [split|]; simpl.
  - by rewrite length_insert.
  - apply Forall_insert; [done|]. simpl. unfold LOWER_POWER_CUTOFF in Hp. lra.
  - right. exists (mkChroma (freqNote v) (fuzzyFreq v) p). split; [|done].
    eapply list_elem_of_lookup_2. by apply list_lookup_insert_eq.
Qed.

Lemma transcribeLoop_inv (freqs : list R) :
  ∀ (Pxx : list R) (st st' : Transcription * Z),
    transcribeInv st → transcribeLoop freqs Pxx st = Ok st' → transcribeInv st'.
Proof.
  induction freqs as [|v freqs IH]; intros Pxx st st' Hinv Hl.
  - by injection Hl as <-.
  - destruct Pxx as [|p Pxx]; [done|]. cbn [transcribeLoop] in Hl.
    destruct (transcribeStep v p st) as [st1|] eqn:Hs; [|done].
    eapply IH; [|exact Hl]. by eapply transcribeStep_inv.
Qed.

(** A transcription that [transcribe] returns is well formed and has a bin
    above the power floor: the power key is never asked to divide by 0. *)
Lemma transcribe_wf (freqs Pxx : list R) (t : Transcription) :
  transcribe freqs Pxx = Ok (Some t) →
  wf_Transcription t ∧
  ∃ c, c ∈ t ∧ (LOWER_POWER_CUTOFF < Chroma_Strength c)%R.
Proof.
  unfold transcribe. intros H.
  destruct (transcribeLoop freqs Pxx _) as [[t' count]|] eqn:Hl; [|done].
  simpl in H. destruct (Z.eqb_spec count 0) as [|Hne]; [done|].
  injection H as ->.
  assert (Hinv : transcribeInv (t, count)).
  { eapply transcribeLoop_inv; [|exact Hl]. split; [|by left].
    split; [reflexivity|]. simpl. repeat constructor; simpl; lra. }
  destruct Hinv as [Hwf [?|Hex]]; [done|]. by split.
Qed.

(** A frame with a single sample above both floors. *)
Lemma transcribe_single (v p : R) :
  (LOWER_POWER_CUTOFF < p)%R → (LOWER_FREQ_CUTOFF < v)%R →
  transcribe [v] [p]
  = Ok (Some (<[Z.to_nat (freqNote v) := mkChroma (freqNote v) (fuzzyFreq v) p]>
                (replicate 12 zeroChroma))).
Proof.
  intros Hp Hv. unfold transcribe. cbn [transcribeLoop].
  change (Z.to_nat MAX_NOTE) with 12%nat.
  destruct (transcribeStep_cases (replicate 12 zeroChroma) 0 v p eq_refl)
    as (c & Hc & [(_ & _ & _ & E)|[Hn E]]).
  - rewrite E. reflexivity.
  - exfalso. apply Hn. apply list_elem_of_lookup_2, elem_of_replicate in Hc.
    destruct Hc as [-> _].
    unfold LOWER_POWER_CUTOFF, LOWER_FREQ_CUTOFF, zeroChroma in *.
    cbn [Chroma_Strength]. lra.
Qed.

Lemma audioKey_general (Sprintf_e : R → string) (sha1_Sum : string → list Z)
    (t : Transcription) (m : R) :
  wf_Transcription t → max_strength t m → (0 < m)%R →
  ∃ key, audioKey Sprintf_e sha1_Sum (Some t) = Some key ∧ powerKey_of t m key.
Proof.
  intros [Hlen Hpos] Hmax Hm.
  assert (Hbytes : ∀ c, c ∈ t →
            let b := byte_of_int
                       (int_of_float (Chroma_Strength c / m * 8.0 + 0.5)) in
            b = roundHalfUp (Chroma_Strength c / m * 8) ∧ 0 <= b <= 8 ∧
            (Chroma_Strength c = m → b = 8)).
  { intros c Hc. apply key_byte; [|done]. destruct Hmax as [Hle _].
    rewrite Forall_forall in Hpos, Hle. split; auto. }
  unfold audioKey. cbv beta zeta iota. rewrite (maxPxx_is_max t m Hmax Hm).
  eexists. split; [reflexivity|].
  split; [by rewrite length_map|].
  split; [|split].
  - apply map_ext_in. intros c Hc. apply list_elem_of_In in Hc.
    by destruct (Hbytes c Hc).
  - apply Forall_forall. intros b Hb. apply list_elem_of_In, in_map_iff in Hb.
    destruct Hb as (c & <- & Hc). apply list_elem_of_In in Hc.
    by destruct (Hbytes c Hc) as (_ & H & _).
  - intros i c Hi Hcm.
    change (map ?f t) with (f <$> t). rewrite list_lookup_fmap, Hi. simpl.
    f_equal. apply list_elem_of_lookup_2 in Hi.
    by destruct (Hbytes c Hi) as (_ & _ & H); apply H.
Qed.

Lemma example_Transcription_wf :
  wf_Transcription example_Transcription ∧
  max_strength example_Transcription 8.
Proof.
  unfold example_Transcription. split; [split; [reflexivity|]|split].
  - repeat constructor; simpl; lra.
  - repeat constructor; simpl; lra.
  - apply Exists_cons_tl, Exists_cons_hd. reflexivity.
Qed.

(** ** The power key in binary64 *)

Lemma f64_exact_low :
  f64_exact misrounded_low = (6566527764028280, 35184372088832).
Proof. vm_compute. reflexivity. Qed.

Lemma f64_exact_max :
  f64_exact misrounded_max = (6566527764028281, 2199023255552).
Proof. vm_compute. reflexivity. Qed.

Lemma f64_exact_zero : f64_exact 0%float = (0, 1).
Proof. vm_compute. reflexivity. Qed.

(** C3: [int(x + 0.5)] does not always round to the nearest integer.  For
    the strengths 186.6319440758923 in bin A and 2986.1111052142774 in bin
    A#, both above the power floor, [audioKey] returns the key
    [1, 8, 0, ..., 0], while the quotient [strength / max * 8] of bin A is
    below one half and rounds to 0: the key of nearest integers is
    [0, 8, 0, ..., 0].  The quotient is computed as 0.49999999999999994, and
    adding 0.5 to it gives 1.0 in binary64.  The strengths
    [0, 8, 4, 0, ..., 0] of the example give [0, 8, 4, 0, ..., 0]. *)
Theorem audioKey_misrounds (Sprintf_e : float → string)
    (sha1_Sum : string → list Z) :
  audioKey_f64 Sprintf_e sha1_Sum (Some misrounded_Transcription)
  = Some [1; 8; 0; 0; 0; 0; 0; 0; 0; 0; 0; 0] ∧
  map (λ c, roundHalfUp (f64_val (Chroma64_Strength c)
                         / f64_val misrounded_max * 8))
    misrounded_Transcription
  = [0; 8; 0; 0; 0; 0; 0; 0; 0; 0; 0; 0] ∧
  (LOWER_POWER_CUTOFF < f64_val misrounded_low < f64_val misrounded_max)%R ∧
  audioKey_f64 Sprintf_e sha1_Sum (Some example_Transcription64)
  = Some [0; 8; 4; 0; 0; 0; 0; 0; 0; 0; 0; 0].
Proof.
  split; [vm_compute; reflexivity|]. split; [|split].
  - unfold misrounded_Transcription, f64_val.
    cbn [map replicate Chroma64_Strength].
    rewrite f64_exact_low, f64_exact_max, f64_exact_zero. cbn [fst snd].
    unfold roundHalfUp.
    rewrite (Int_part_eq _ 0) by lra.
    rewrite (Int_part_eq _ 8) by lra.
    rewrite (Int_part_eq _ 0) by lra.
    reflexivity.
  - unfold f64_val, LOWER_POWER_CUTOFF.
    rewrite f64_exact_low, f64_exact_max. cbn [fst snd]. lra.
  - vm_compute. reflexivity.
Qed.



(** ** Sorting *)

Section InsertionSort.

Context {A : Type}.

Lemma insertSorted_Permutation (less : A → A → bool) (x : A) (l : list A) :
  insertSorted less x l ≡ₚ x :: l.
Proof.
  induction l as [|y l IH]; simpl; [done|].
  destruct (less x y); [done|]. rewrite IH. apply Permutation_swap.
Qed.

Lemma sort_Sort_Permutation (less : A → A → bool) (l : list A) :
  sort_Sort less l ≡ₚ l.
Proof.
  unfold sort_Sort.
  assert (H : ∀ acc, fold_left (λ acc x, insertSorted less x acc) l acc
                     ≡ₚ acc ++ l).
  { induction l as [|x l IH]; intros acc; simpl.
    - by rewrite app_nil_r.
    - rewrite IH, insertSorted_Permutation. simpl. apply Permutation_middle. }
  apply H.
Qed.

Lemma sort_Sort_length (less : A → A → bool) (l : list A) :
  length (sort_Sort less l) = length l.
Proof. by rewrite sort_Sort_Permutation. Qed.

(** Sorting with [sort.Reverse] of a by-key [Less] sorts descending. *)
Variable key : A → R.

Lemma insertSorted_desc (x : A) (l : list A) :
  StronglySorted (descBy key) l →
  StronglySorted (descBy key) (insertSorted (λ a b, Rltb (key b) (key a)) x l).
Proof.
  induction l as [|y l IH]; intros Hs; simpl.
  - repeat constructor.
  - apply StronglySorted_inv in Hs as [Hs Hy].
    destruct (Rltb (key y) (key x)) eqn:E.
    + apply Rltb_true in E. constructor; [by constructor|].
      constructor; [unfold descBy; lra|].
      eapply Forall_impl; [exact Hy|]. unfold descBy. intros z Hz. lra.
    + apply Rltb_false in E. constructor; [by apply IH|].
      rewrite insertSorted_Permutation. by constructor.
Qed.

Lemma sort_Sort_desc (l : list A) :
  StronglySorted (descBy key) (sort_Sort (λ a b, Rltb (key b) (key a)) l).
Proof.
  unfold sort_Sort.
  assert (H : ∀ acc, StronglySorted (descBy key) acc →
                StronglySorted (descBy key)
                  (fold_left (λ acc x,
                     insertSorted (λ a b, Rltb (key b) (key a)) x acc) l acc)).
  { induction l as [|x l IH]; intros acc Hacc; simpl; [done|].
    by apply IH, insertSorted_desc. }
  apply H. constructor.
Qed.

End InsertionSort.

(** ** Top-N selector *)

Lemma topLoop_spec (Pxx : list R) :
  ∀ (freqs : list R) (cs : candidates),
    (length Pxx ≤ length freqs)%nat →
    topLoop Pxx freqs cs = Ok (cs ++ admissibleCandidates freqs Pxx).
Proof.
  unfold admissibleCandidates.
  induction Pxx as [|v Pxx IH]; intros freqs cs Hle.
  - destruct freqs; simpl; by rewrite app_nil_r.
  - destruct freqs as [|f freqs]; simpl in Hle; [lia|].
    cbn [topLoop admissibleSamples tail].
    destruct (Rgtb v LOWER_POWER_CUTOFF); simpl.
    + rewrite IH by lia. destruct (Rgtb f LOWER_FREQ_CUTOFF); simpl; [|done].
      by rewrite <- app_assoc.
    + by apply IH; lia.
Qed.

(** C5: with fewer than [REQUIRED_CANDIDATES] samples above both floors the
    top-N selector returns nil; otherwise it returns exactly that many
    candidates, sorted descending by frequency, taken from the admissible
    ones, and none of those left out has more power than one that was
    taken. *)
Theorem getTopCandidates_spec (freqs Pxx : list R) :
  (length Pxx ≤ length freqs)%nat →
  (Z.of_nat (length (admissibleCandidates freqs Pxx)) < REQUIRED_CANDIDATES →
   getTopCandidates freqs Pxx = Ok None) ∧
  (REQUIRED_CANDIDATES <= Z.of_nat (length (admissibleCandidates freqs Pxx)) →
   ∃ top rest : candidates,
     getTopCandidates freqs Pxx = Ok (Some top) ∧
     Z.of_nat (length top) = REQUIRED_CANDIDATES ∧
     StronglySorted (descBy candidate_Freq) top ∧
     top ++ rest ≡ₚ admissibleCandidates freqs Pxx ∧
     ∀ x y, x ∈ top → y ∈ rest → (candidate_Pxx y <= candidate_Pxx x)%R).
Proof.
  intros Hle. unfold getTopCandidates. rewrite topLoop_spec by done.
  simpl. set (adm := admissibleCandidates freqs Pxx).
  set (cs := sort_Sort (sort_Reverse ByPxx_Less) adm).
  assert (Hperm : cs ≡ₚ adm) by apply sort_Sort_Permutation.
  assert (Hsorted : StronglySorted (descBy candidate_Pxx) cs)
    by apply (sort_Sort_desc candidate_Pxx).
  rewrite (Permutation_length Hperm). unfold REQUIRED_CANDIDATES.
  split; intros Hn.
  - apply Z.ltb_lt in Hn. by rewrite Hn.
  - apply Z.ltb_ge in Hn as Hn'. rewrite Hn'.
    change (Z.to_nat 4) with 4%nat.
    exists (sort_Sort (sort_Reverse ByFreq_Less) (take 4 cs)), (drop 4 cs).
    split; [done|]. split; [|split; [|split]].
    + rewrite sort_Sort_length, length_take, (Permutation_length Hperm). lia.
    + apply (sort_Sort_desc candidate_Freq).
    + by rewrite sort_Sort_Permutation, take_drop.
    + intros x y Hx Hy. rewrite sort_Sort_Permutation in Hx.
      rewrite <- (take_drop 4 cs) in Hsorted.
      apply (StronglySorted_app_1_elem_of _ _ _ _ _ Hsorted Hx Hy).
Qed.

(** Decide the comparisons of concrete floats in the goal. *)
Ltac Rcompare_eval :=
  unfold LOWER_POWER_CUTOFF, LOWER_FREQ_CUTOFF;
  repeat match goal with
    | |- context [Rgtb ?a ?b] =>
        first [ rewrite (proj2 (Rgtb_true a b)) by lra
              | rewrite (proj2 (Rgtb_false a b)) by lra ]
    | |- context [Rltb ?a ?b] =>
        first [ rewrite (proj2 (Rltb_true a b)) by lra
              | rewrite (proj2 (Rltb_false a b)) by lra ]
    end.

Lemma getTopCandidates_spec_witness :
  getTopCandidates [440%R] [50%R] = Ok None ∧
  ∃ top rest : candidates,
    getTopCandidates [100; 200; 300; 400; 500]%R [200; 300; 150; 50; 400]%R
    = Ok (Some top) ∧
    Z.of_nat (length top) = REQUIRED_CANDIDATES ∧
    StronglySorted (descBy candidate_Freq) top ∧
    top ++ rest
    ≡ₚ admissibleCandidates [100; 200; 300; 400; 500]%R
         [200; 300; 150; 50; 400]%R ∧
    ∀ x y, x ∈ top → y ∈ rest → (candidate_Pxx y <= candidate_Pxx x)%R.
Proof.
  split.
  - apply (proj1 (getTopCandidates_spec [440%R] [50%R] ltac:(simpl; lia))).
    unfold admissibleCandidates. cbn [admissibleSamples]. Rcompare_eval.
    unfold REQUIRED_CANDIDATES. simpl. lia.
  - apply (proj2 (getTopCandidates_spec [100; 200; 300; 400; 500]%R
                    [200; 300; 150; 50; 400]%R ltac:(simpl; lia))).
    unfold admissibleCandidates. cbn [admissibleSamples]. Rcompare_eval.
    unfold REQUIRED_CANDIDATES. simpl. lia.
Defined.

(** ** Banded selector *)

Lemma collect_fold {A B : Type} (g : A → B) (l : list A) :
  ∀ acc, fold_left (λ cs kv, cs ++ [g kv]) l acc = acc ++ map g l.
Proof.
  induction l as [|x l IH]; intros acc; simpl.
  - by rewrite app_nil_r.
  - by rewrite IH, <- app_assoc.
Qed.

Lemma getBandedCandidates_unfold (mapRange : gmap Z R → list (Z * R))
    (freqs Pxx : list R) (highScores highPoints : gmap Z R) :
  bandLoop Pxx freqs (∅, ∅) = Ok (highScores, highPoints) →
  getBandedCandidates mapRange freqs Pxx
  = Ok (sort_Sort (sort_Reverse ByFreq_Less)
          (map (bandCandidate highScores) (mapRange highPoints))).
Proof.
  intros H. unfold getBandedCandidates. rewrite H. simpl.
  by rewrite (collect_fold (bandCandidate highScores)).
Qed.

Lemma freqBand_eval (f : R) (z : Z) :
  0 <= z <= 1000000 → (IZR z <= f / 5512.5 * 4 + 0.5 < IZR z + 1)%R →
  freqBand f = z.
Proof.
  intros Hz Hx. unfold freqBand, LOWER_FREQ_CUTOFF. cbv zeta.
  replace ((f - 0) / (11025.0 / 2.0 - 0) * 4 + 0.5)%R
    with (f / 5512.5 * 4 + 0.5)%R by lra.
  apply int_of_float_small.
  - apply Rtrunc_nonneg; [|done]. pose proof (IZR_le 0 z ltac:(lia)). lra.
  - unfold min_int64, max_int64. lia.
Qed.

Lemma bandLoop_fiveBands :
  bandLoop fiveBands_Pxx fiveBands_freqs (∅, ∅)
  = Ok (<[4 := 200%R]> (<[3 := 200%R]> (<[2 := 200%R]> (<[1 := 200%R]>
          (<[0 := 200%R]> ∅)))),
        <[4 := 5200%R]> (<[3 := 4100%R]> (<[2 := 2800%R]> (<[1 := 1400%R]>
          (<[0 := 300%R]> ∅))))).
Proof.
  unfold fiveBands_Pxx, fiveBands_freqs. cbn [bandLoop fst snd].
  rewrite (freqBand_eval 300 0), (freqBand_eval 1400 1),
    (freqBand_eval 2800 2), (freqBand_eval 4100 3), (freqBand_eval 5200 4)
    by (lia || lra).
  unfold mapGet.
  repeat (progress (cbn [fst snd default];
                    rewrite ?lookup_insert_ne, ?lookup_empty by done;
                    Rcompare_eval)).
  reflexivity.
Qed.

Lemma getBandedCandidates_sorted (mapRange : gmap Z R → list (Z * R))
    (freqs Pxx : list R) (cs : candidates) :
  getBandedCandidates mapRange freqs Pxx = Ok cs →
  StronglySorted (descBy candidate_Freq) cs.
Proof.
  unfold getBandedCandidates.
  destruct (bandLoop Pxx freqs (∅, ∅)) as [[hs hp]|]; [|done].
  simpl. intros H. injection H as <-. apply (sort_Sort_desc candidate_Freq).
Qed.

(** C2: five samples below the Nyquist limit 5512.5 Hz, all above the power
    floor, fall into the five band indices 0, 1, 2, 3, 4, and the banded
    selector returns five candidates, in whatever order the map is
    visited. *)
Theorem getBandedCandidates_five_bands
    (mapRange : gmap Z R → list (Z * R)) :
  rangeOrder mapRange →
  Forall (λ f, (0 < f < 11025 / 2)%R) fiveBands_freqs ∧
  map freqBand fiveBands_freqs = [0; 1; 2; 3; 4] ∧
  ∃ cs, getBandedCandidates mapRange fiveBands_freqs fiveBands_Pxx = Ok cs ∧
        length cs = 5%nat.
Proof.
  intros Hrange. split; [|split].
  - unfold fiveBands_freqs. repeat constructor; lra.
  - unfold fiveBands_freqs. cbn [map].
    by rewrite (freqBand_eval 300 0), (freqBand_eval 1400 1),
      (freqBand_eval 2800 2), (freqBand_eval 4100 3), (freqBand_eval 5200 4)
      by (lia || lra).
  - eexists. split.
    + apply getBandedCandidates_unfold, bandLoop_fiveBands.
    + rewrite sort_Sort_length, length_map, (Permutation_length (Hrange _)).
      rewrite length_map_to_list.
      rewrite !map_size_insert_None, map_size_empty; [done|..];
        by rewrite ?lookup_insert_ne, lookup_empty.
Qed.

Lemma getBandedCandidates_five_bands_witness :
  ∃ cs, getBandedCandidates map_to_list fiveBands_freqs fiveBands_Pxx = Ok cs ∧
        length cs = 5%nat.
Proof.
  apply (getBandedCandidates_five_bands map_to_list). by intros m.
Defined.

(** ** Idempotence *)






Section Idempotence.

Context {Buffer : Type}.
Variable Buffer_Timestamp : Buffer → R.
Variable PwelchAnalysis OverlapAnalysis : Buffer → Z → list R * list R.
Variable Sprintf_e : R → string.
Variable sha1_Sum : string → list Z.



End Idempotence.

(** *** A frame on which the order of visiting the map shows *)

Lemma map_to_list_four {A : Type} (a b c d : A) :
  map_to_list (<[3 := d]> (<[2 := c]> (<[1 := b]> (<[0 := a]>
    (∅ : gmap Z A)))))
  = [(3, d); (2, c); (1, b); (0, a)].
Proof. reflexivity. Qed.

Lemma rangeOrder_map_to_list : rangeOrder map_to_list.
Proof. by intros m. Qed.

Lemma rangeOrder_reverse : rangeOrder (λ m, reverse (map_to_list m)).
Proof. intros m. apply reverse_Permutation. Qed.

Lemma fuzzyFreq_tie :
  fuzzyFreq 689 = 690%R ∧ fuzzyFreq 689.5 = 690%R ∧
  fuzzyFreq 2800 = 2800%R ∧ fuzzyFreq 4100 = 4100%R.
Proof.
  rewrite (fuzzyFreq_eval 689 69), (fuzzyFreq_eval 689.5 69),
    (fuzzyFreq_eval 2800 280), (fuzzyFreq_eval 4100 410) by (lia || lra).
  rewrite !mult_IZR. repeat split; lra.
Qed.

Lemma bandLoop_tie :
  bandLoop tie_Pxx tie_freqs (∅, ∅)
  = Ok (<[3 := 200%R]> (<[2 := 200%R]> (<[1 := 300%R]> (<[0 := 200%R]> ∅))),
        <[3 := 4100%R]> (<[2 := 2800%R]> (<[1 := 689.5%R]>
          (<[0 := 689%R]> ∅)))).
Proof.
  unfold tie_Pxx, tie_freqs. cbn [bandLoop fst snd].
  rewrite (freqBand_eval 689 0), (freqBand_eval 689.5 1),
    (freqBand_eval 2800 2), (freqBand_eval 4100 3) by (lia || lra).
  unfold mapGet.
  repeat (progress (cbn [fst snd default];
                    rewrite ?lookup_insert_ne, ?lookup_empty by done;
                    Rcompare_eval)).
  reflexivity.
Qed.

(** Evaluate a sort of concrete candidates. *)
Ltac sort_eval :=
  unfold sort_Sort, sort_Reverse, ByFreq_Less, ByPxx_Less;
  repeat (progress (cbn [fold_left insertSorted candidate_Freq candidate_Pxx];
                    Rcompare_eval)).

Lemma getBandedCandidates_tie :
  getBandedCandidates map_to_list tie_freqs tie_Pxx
  = Ok [mkCandidate 4100 200; mkCandidate 2800 200; mkCandidate 690 300;
        mkCandidate 690 200] ∧
  getBandedCandidates (λ m, reverse (map_to_list m)) tie_freqs tie_Pxx
  = Ok [mkCandidate 4100 200; mkCandidate 2800 200; mkCandidate 690 200;
        mkCandidate 690 300].
Proof.
  destruct fuzzyFreq_tie as (F0 & F1 & F2 & F3).
  rewrite !(getBandedCandidates_unfold _ _ _ _ _ bandLoop_tie).
  rewrite map_to_list_four. unfold bandCandidate, mapGet.
  cbn [reverse rev_append map fst snd].
  rewrite F0, F1, F2, F3.
  rewrite ?lookup_insert_eq, ?lookup_insert_ne by done.
  rewrite ?lookup_insert_eq, ?lookup_insert_ne by done.
  rewrite ?lookup_insert_eq, ?lookup_insert_ne by done.
  rewrite ?lookup_insert_eq by done.
  cbn [default]. split; sort_eval; reflexivity.
Qed.

(** In the "freqbands" branch, which [New] as written never selects, two
    orders of visiting [highPoints] give fingerprints whose candidates
    differ in order. *)
Lemma New_with_freqbands_order :
  rangeOrder map_to_list ∧ rangeOrder (λ m, reverse (map_to_list m)) ∧
  New_with (λ b : R, b) (λ _ _, (tie_Pxx, tie_freqs))
    (λ _ _, (tie_Pxx, tie_freqs)) (λ _, EmptyString) (λ _, [])
    map_to_list "freqbands" 0%R 11025 SA_PWELCH false
  ≠ New_with (λ b : R, b) (λ _ _, (tie_Pxx, tie_freqs))
      (λ _ _, (tie_Pxx, tie_freqs)) (λ _, EmptyString) (λ _, [])
      (λ m, reverse (map_to_list m)) "freqbands" 0%R 11025 SA_PWELCH false.
Proof.
  split; [apply rangeOrder_map_to_list|]. split; [apply rangeOrder_reverse|].
  destruct getBandedCandidates_tie as [E1 E2].
  unfold New_with, spectralAnalysis. simpl. rewrite E1, E2. simpl.
  intros H. injection H as H. lra.
Qed.


(** ** Banded selector: one candidate per band, the strongest *)

Lemma bandInv_step (seen : list (R * R)) (st : gmap Z R * gmap Z R)
    (f v : R) :
  bandInv seen st → (LOWER_POWER_CUTOFF < v)%R →
  bandInv (seen ++ [(f, v)])
    (if Rgtb v (mapGet (fst st) (freqBand f))
     then (<[freqBand f := v]> (fst st), <[freqBand f := f]> (snd st))
     else st).
Proof.
  destruct st as [hs hp]. unfold bandInv at 1.
  intros (I1 & I2 & I3) Hv. cbn [fst snd] in *.
  unfold LOWER_POWER_CUTOFF in Hv.
  destruct (Rgtb v (mapGet hs (freqBand f))) eqn:E;
    unfold bandInv; cbn [fst snd].
  - apply Rgtb_true in E. split; [|split].
    + intros k f0 Hk. destruct (decide (k = freqBand f)) as [->|Hne].
      * rewrite lookup_insert_eq in Hk. injection Hk as <-. split; [done|].
        exists v. rewrite lookup_insert_eq. split; [done|].
        apply elem_of_app. right. by apply list_elem_of_singleton.
      * rewrite lookup_insert_ne in Hk by done.
        destruct (I1 k f0 Hk) as (Hb & v0 & Hv0 & Hin). split; [done|].
        exists v0. rewrite lookup_insert_ne by done. split; [done|].
        apply elem_of_app. by left.
    + intros k v0 Hk. destruct (decide (k = freqBand f)) as [->|Hne].
      * exists f. by rewrite lookup_insert_eq.
      * rewrite lookup_insert_ne in Hk by done. rewrite lookup_insert_ne by done.
        by eapply I2.
    + intros f0 v0 Hin. apply elem_of_app in Hin as [Hin|Hin].
      * destruct (I3 f0 v0 Hin) as (v' & Hv' & Hle).
        destruct (decide (freqBand f0 = freqBand f)) as [Heq|Hne].
        -- exists v. rewrite Heq, lookup_insert_eq. split; [done|].
           unfold mapGet in E. rewrite <- Heq, Hv' in E. simpl in E. lra.
        -- exists v'. by rewrite lookup_insert_ne.
      * apply list_elem_of_singleton in Hin. injection Hin as -> ->.
        exists v. rewrite lookup_insert_eq. split; [done|lra].
  - apply Rgtb_false in E. split; [|split].
    + intros k f0 Hk. destruct (I1 k f0 Hk) as (Hb & v0 & Hv0 & Hin).
      split; [done|]. exists v0. split; [done|]. apply elem_of_app. by left.
    + done.
    + intros f0 v0 Hin. apply elem_of_app in Hin as [Hin|Hin]; [by apply I3|].
      apply list_elem_of_singleton in Hin. injection Hin as -> ->.
      unfold mapGet in E. destruct (hs !! freqBand f) as [v'|]; simpl in E.
      * by exists v'.
      * lra.
Qed.

Lemma bandLoop_inv (Pxx : list R) :
  ∀ (freqs : list R) (seen : list (R * R)) (st st' : gmap Z R * gmap Z R),
    bandInv seen st → bandLoop Pxx freqs st = Ok st' →
    bandInv (seen ++ admissibleSamples freqs Pxx) st'.
Proof.
  induction Pxx as [|v Pxx IH]; intros freqs seen st st' Hinv Hl.
  - injection Hl as <-. destruct freqs; simpl; by rewrite app_nil_r.
  - cbn [bandLoop] in Hl.
    destruct (Rgtb v LOWER_POWER_CUTOFF) eqn:Ev.
    + destruct freqs as [|f freqs]; [done|]. cbn [admissibleSamples].
      rewrite Ev. apply Rgtb_true in Ev.
      destruct (Rgtb f LOWER_FREQ_CUTOFF) eqn:Ef; cbn [andb].
      * rewrite (app_assoc seen [(f, v)]).
        eapply IH; [|exact Hl]. by apply bandInv_step.
      * simpl. by eapply IH.
    + destruct freqs as [|f freqs]; cbn [tail admissibleSamples] in *.
      * rewrite app_nil_r. assert (H := IH [] seen st st' Hinv Hl).
        destruct Pxx; simpl in H; by rewrite app_nil_r in H.
      * rewrite Ev. simpl. by eapply IH.
Qed.

(** X12: the candidates of the banded selector are those of the entries
    of [highPoints], one per band index, each the quantized frequency and
    the power of an admissible sample of that band that no admissible sample
    of the band exceeds in power; they come sorted by descending
    frequency. *)
Lemma getBandedCandidates_one_per_band (mapRange : gmap Z R → list (Z * R))
    (freqs Pxx : list R) (cs : candidates) :
  rangeOrder mapRange →
  getBandedCandidates mapRange freqs Pxx = Ok cs →
  StronglySorted (descBy candidate_Freq) cs ∧
  ∃ highScores highPoints : gmap Z R,
    cs ≡ₚ map (bandCandidate highScores) (map_to_list highPoints) ∧
    NoDup (map fst (map_to_list highPoints)) ∧
    bandInv (admissibleSamples freqs Pxx) (highScores, highPoints).
Proof.
  intros Hrange Hcs. split; [by eapply getBandedCandidates_sorted|].
  destruct (bandLoop Pxx freqs (∅, ∅)) as [[hs hp]|p] eqn:Hl.
  - rewrite (getBandedCandidates_unfold _ _ _ _ _ Hl) in Hcs.
    injection Hcs as <-. exists hs, hp. split; [|split].
    + rewrite sort_Sort_Permutation.
      change (bandCandidate hs <$> mapRange hp
              ≡ₚ bandCandidate hs <$> map_to_list hp).
      by rewrite (Hrange hp).
    + apply NoDup_fst_map_to_list.
    + apply (bandLoop_inv Pxx freqs [] (∅, ∅)); [|done].
      split; [|split]; simpl.
      * intros k f Hk. by rewrite lookup_empty in Hk.
      * intros k v Hk. by rewrite lookup_empty in Hk.
      * intros f v Hin. by apply elem_of_nil in Hin.
  - unfold getBandedCandidates in Hcs. by rewrite Hl in Hcs.
Qed.

(** *** The banded branch on concrete frames *)

Lemma banded_pipeline_requires_four_witness :
  New_with (λ b : R, b) (λ _ _, ([], [])) (λ _ _, ([], [])) (λ _, EmptyString)
    (λ _, []) map_to_list "freqbands" 0%R 11025 SA_PWELCH false = Ok None ∧
  New_with (λ b : R, b) (λ _ _, (tie_Pxx, tie_freqs)) (λ _ _, ([], []))
    (λ _, EmptyString) (λ _, []) map_to_list "freqbands" 0%R 11025 SA_PWELCH
    false
  = Ok (Some (mkFingerprint
                (hashKey (λ _, EmptyString) (λ _, [])
                   [mkCandidate 4100 200; mkCandidate 2800 200;
                    mkCandidate 690 300; mkCandidate 690 200])
                0%R
                (Some [mkCandidate 4100 200; mkCandidate 2800 200;
                       mkCandidate 690 300; mkCandidate 690 200])
                None)) ∧
  ∃ cs, getBandedCandidates map_to_list tie_freqs tie_Pxx = Ok cs.
Proof.
  split; [|split].
  - apply (proj1 (proj1 (banded_pipeline_requires_four (Buffer:=R) (λ b, b)
                           (λ _ _, ([], [])) (λ _ _, ([], []))
                           (λ _, EmptyString) (λ _, []) map_to_list)
                    0%R 11025 SA_PWELCH false [] [] [] eq_refl
                    getBandedCandidates_nil)).
    unfold REQUIRED_CANDIDATES. simpl. lia.
  - apply (proj2 (proj1 (banded_pipeline_requires_four (Buffer:=R) (λ b, b)
                           (λ _ _, (tie_Pxx, tie_freqs)) (λ _ _, ([], []))
                           (λ _, EmptyString) (λ _, []) map_to_list)
                    0%R 11025 SA_PWELCH false tie_freqs tie_Pxx _ eq_refl
                    (proj1 getBandedCandidates_tie))).
    unfold REQUIRED_CANDIDATES. simpl. lia.
  - apply (proj2 (banded_pipeline_requires_four (Buffer:=R) (λ b, b)
                    (λ _ _, ([], [])) (λ _ _, ([], []))
                    (λ _, EmptyString) (λ _, []) map_to_list)
             tie_freqs tie_Pxx).
    simpl. lia.
Defined.

(** *** A frame with one component at 440 Hz

    A single sample of 440 Hz at power 500: bin A holds the quantized
    frequency 440 and the power, the other bins are empty, and the key is 8
    at A and 0 elsewhere. *)

Lemma New_single_440 :
  New (λ b : R, b) (λ _ _, ([500%R], [440.0%R])) (λ _ _, ([], []))
    (λ _, EmptyString) (λ _, []) map_to_list 3%R 11025 SA_PWELCH false
  = Ok (Some (mkFingerprint [8; 0; 0; 0; 0; 0; 0; 0; 0; 0; 0; 0] 3%R None
                (Some (mkChroma A_NOTE 440 500
                         :: replicate 11 zeroChroma)))).
Proof.
  assert (Ht : transcribe [440.0%R] [500%R]
               = Ok (Some (mkChroma A_NOTE 440 500 :: replicate 11 zeroChroma))).
  { rewrite transcribe_single
      by (unfold LOWER_POWER_CUTOFF, LOWER_FREQ_CUTOFF; lra).
    rewrite freqNote_440, (fuzzyFreq_eval 440.0 44) by (lia || lra).
    rewrite mult_IZR. replace (44 * 10)%R with 440%R by lra. reflexivity. }
  assert (Hk : audioKey (λ _, EmptyString) (λ _, [])
                 (Some (mkChroma A_NOTE 440 500 :: replicate 11 zeroChroma))
               = Some [8; 0; 0; 0; 0; 0; 0; 0; 0; 0; 0; 0]).
  { destruct (audioKey_general (λ _, EmptyString) (λ _, [])
                (mkChroma A_NOTE 440 500 :: replicate 11 zeroChroma) 500%R)
      as (key & -> & _ & -> & _).
    - split; [reflexivity|]. repeat constructor; simpl; lra.
    - split; [repeat constructor; simpl; lra|]. by apply Exists_cons_hd.
    - lra.
    - cbn [replicate map Chroma_Strength zeroChroma].
      rewrite (roundHalfUp_IZR (500 / 500 * 8) 8) by lra.
      rewrite (roundHalfUp_IZR (0 / 500 * 8) 0) by lra.
      reflexivity. }
  remember (mkChroma A_NOTE 440 500 :: replicate 11 zeroChroma) as t.
  unfold New, New_with, spectralAnalysis. cbn -[audioKey transcribe].
  rewrite Ht. cbn -[audioKey]. by rewrite Hk.
Qed.

(** * Further properties of the code *)

(** ** Pitch classifier and note names *)

Lemma noteSteps_440 : noteSteps 440.0 = 0%R.
Proof.
  unfold noteSteps. replace (440.0 / 440.0)%R with 1%R by lra.
  rewrite ln_1. unfold Rdiv. apply Rmult_0_l.
Qed.


(** X1: a positive frequency whose semitone distance from 440 Hz is within
    0.5 - 1e-9 of a whole number [k >= 0] of semitones is classified as
    [k mod 12].  The margin of 1e-9 semitones keeps the distance away from
    the rounding boundary, where the rounding of the float64 operations
    decides the class. *)
Theorem freqNote_near_semitone (f : R) (k : Z) :
  (0 < f)%R → 0 <= k < 2 ^ 61 →
  (IZR k - (0.5 - 1 / 1000000000) <= noteSteps f
   <= IZR k + (0.5 - 1 / 1000000000))%R →
  freqNote f = k mod MAX_NOTE.
Proof.
  intros _ [Hk0 Hk1] [Hlo Hhi].
  assert (Hk0' : (0 <= IZR k)%R) by (by apply IZR_le).
  assert (Hk1' : (IZR k < 2305843009213693952)%R) by (apply IZR_lt; lia).
  rewrite freqNote_from_half_below.
  - unfold classify_spec, roundHalfUp. f_equal. apply Int_part_eq. lra.
  - split; [lra|]. rewrite (pow_IZR 2 62).
    change (2 ^ Z.of_nat 62) with 4611686018427387904. lra.
Qed.

Lemma freqNote_near_semitone_witness : freqNote 440.0 = 0 mod MAX_NOTE.
Proof.
  apply (freqNote_near_semitone 440.0%R 0); [lra|lia|].
  rewrite noteSteps_440. lra.
Defined.



(** X3: [note.String] names exactly the notes 0 to 11 and panics on every
    other value; different notes have different names; and the note of any
    frequency has a name. *)
Theorem note_String_names :
  (∀ n : Z, is_Some (note_String n) ↔ 0 <= n < MAX_NOTE) ∧
  (∀ (n n' : Z) (s : string),
     note_String n = Some s → note_String n' = Some s → n = n') ∧
  (∀ f : R, is_Some (note_String (freqNote f))).
Proof.
  assert (Hcases : ∀ n, 0 <= n < 12 →
            n = 0 ∨ n = 1 ∨ n = 2 ∨ n = 3 ∨ n = 4 ∨ n = 5 ∨ n = 6 ∨ n = 7 ∨
            n = 8 ∨ n = 9 ∨ n = 10 ∨ n = 11) by (intros; lia).
  assert (Hdef : ∀ n, is_Some (note_String n) → 0 <= n < 12).
  { intros n [s Hs]. unfold note_String in Hs.
    repeat match type of Hs with
           | (if ?n =? ?k then _ else _) = _ =>
               destruct (Z.eqb_spec n k) as [->|_]; [by vm_compute|]
           end.
    done. }
  assert (Hin : ∀ n, 0 <= n < 12 → is_Some (note_String n)).
  { intros n Hn.
    destruct (Hcases n Hn) as [->|[->|[->|[->|[->|[->|[->|[->|[->|[->|[->| ->]]]]]]]]]]];
      by eexists. }
  split; [|split].
  - intros n. split; [apply Hdef|apply Hin].
  - intros n n' s Hn Hn'.
    pose proof (Hdef n (mk_is_Some _ _ Hn)) as Hr.
    pose proof (Hdef n' (mk_is_Some _ _ Hn')) as Hr'.
    destruct (Hcases n Hr) as [->|[->|[->|[->|[->|[->|[->|[->|[->|[->|[->| ->]]]]]]]]]]];
      injection Hn as <-;
      destruct (Hcases n' Hr') as [->|[->|[->|[->|[->|[->|[->|[->|[->|[->|[->| ->]]]]]]]]]]];
      by (reflexivity || discriminate Hn').
  - intros f. apply Hin, freqNote_range.
Qed.

Lemma note_String_names_witness :
  is_Some (note_String 11) ∧ ¬ is_Some (note_String 12) ∧
  ¬ is_Some (note_String (-1)).
Proof.
  split; [|split].
  - apply (proj1 note_String_names 11). unfold MAX_NOTE. lia.
  - intros H. apply (proj1 note_String_names 12) in H. unfold MAX_NOTE in H.
    lia.
  - intros H. apply (proj1 note_String_names (-1)) in H. lia.
Defined.

(** ** Quantizer *)

Lemma Rtrunc_spec (x : R) :
  ((0 <= x)%R → (IZR (Rtrunc x) <= x < IZR (Rtrunc x) + 1)%R) ∧
  ((x < 0)%R → (IZR (Rtrunc x) - 1 < x <= IZR (Rtrunc x))%R).
Proof.
  unfold Rtrunc. destruct (Rle_dec 0 x) as [H|H]; (split; intros H'; [|lra]) ||
    (split; intros H'; [lra|]).
  - apply Int_part_bounds.
  - destruct (Int_part_bounds (- x)) as [H1 H2]. rewrite opp_IZR. lra.
Qed.

Lemma Rtrunc_mono (x y : R) : (x <= y)%R → Rtrunc x <= Rtrunc y.
Proof.
  intros Hxy. destruct (Z.le_gt_cases (Rtrunc x) (Rtrunc y)) as [|Hgt]; [done|].
  exfalso. assert (H1 : Rtrunc y + 1 <= Rtrunc x) by lia.
  apply IZR_le in H1. rewrite plus_IZR in H1.
  destruct (Rtrunc_spec x) as [Hx0 Hx1], (Rtrunc_spec y) as [Hy0 Hy1].
  destruct (Rle_dec 0 x), (Rle_dec 0 y);
    try specialize (Hx0 ltac:(lra)); try specialize (Hx1 ltac:(lra));
    try specialize (Hy0 ltac:(lra)); try specialize (Hy1 ltac:(lra)); try lra.
  (* x < 0 <= y *)
  assert (Hx : Rtrunc x <= 0).
  { apply Z.lt_succ_r, lt_IZR. rewrite succ_IZR. lra. }
  assert (Hy : 0 <= Rtrunc y).
  { apply Z.lt_succ_r, lt_IZR. rewrite succ_IZR. lra. }
  lia.
Qed.

(** Within the range of [int] the quantizer is ten times the truncation. *)
Lemma fuzzyFreq_trunc (f : R) :
  (-1000000000000000 <= f <= 1000000000000000)%R →
  fuzzyFreq f = IZR (Rtrunc (f / 10 + 0.5) * 10) ∧
  - 100000000000001 <= Rtrunc (f / 10 + 0.5) <= 100000000000001.
Proof.
  intros [H1 H2].
  assert (Hlo : -100000000000001 <= Rtrunc (f / 10 + 0.5)).
  { rewrite <- (Rtrunc_neg (-100000000000001) (-100000000000001)) by lra.
    apply Rtrunc_mono. lra. }
  assert (Hhi : Rtrunc (f / 10 + 0.5) <= 100000000000001).
  { rewrite <- (Rtrunc_nonneg 100000000000001 100000000000001) by lra.
    apply Rtrunc_mono. lra. }
  split; [|lia]. unfold fuzzyFreq, float_of_int.
  rewrite (int_of_float_small _ _ eq_refl)
    by (unfold min_int64, max_int64; lia).
  rewrite wrap64_small; [done|]. unfold min_int64, max_int64. lia.
Qed.

(** X4: between -1e15 and 1e15 quantizing is idempotent exactly from -15
    (exclusive) upward: there a quantized frequency quantizes to itself,
    while at or below -15 quantizing a second time gives another value. *)
Theorem fuzzyFreq_idempotent (f : R) :
  (-1000000000000000 <= f <= 1000000000000000)%R →
  (fuzzyFreq (fuzzyFreq f) = fuzzyFreq f ↔ (-15 < f)%R).
Proof.
  intros [H1 H2].
  destruct (fuzzyFreq_trunc f ltac:(lra)) as [E Hr].
  set (z := Rtrunc (f / 10 + 0.5)) in *.
  destruct (Rtrunc_spec (f / 10 + 0.5)) as [Hp Hn]. fold z in Hp, Hn.
  split.
  - intros Hid. destruct (Rlt_dec (-15) f) as [|Hle]; [done|]. exfalso.
    specialize (Hn ltac:(lra)).
    assert (Hz : z <= -1).
    { apply Z.lt_succ_r. change (Z.succ (-1)) with 0. apply lt_IZR. lra. }
    assert (Hz' : (IZR z <= -1)%R) by (by apply IZR_le).
    rewrite E in Hid.
    destruct (fuzzyFreq_trunc (IZR (z * 10))) as [E' _].
    { rewrite mult_IZR. lra. }
    rewrite E' in Hid. apply eq_IZR in Hid.
    rewrite (Rtrunc_neg _ (z + 1)) in Hid; [lia| |].
    + rewrite mult_IZR. lra.
    + rewrite mult_IZR, plus_IZR. lra.
  - intros Hf.
    assert (Hz : 0 <= z).
    { apply Z.lt_succ_r, lt_IZR. rewrite succ_IZR.
      destruct (Rle_dec 0 (f / 10 + 0.5));
        [specialize (Hp ltac:(lra))|specialize (Hn ltac:(lra))]; lra. }
    rewrite E. apply fuzzyFreq_eval; [lia|]. rewrite mult_IZR. lra.
Qed.

Lemma fuzzyFreq_idempotent_witness :
  (fuzzyFreq (fuzzyFreq 444.9) = fuzzyFreq 444.9 ↔ (-15 < 444.9)%R) ∧
  (fuzzyFreq (fuzzyFreq (-20)) = fuzzyFreq (-20) ↔ (-15 < -20)%R).
Proof.
  split.
  - apply (fuzzyFreq_idempotent 444.9%R). lra.
  - apply (fuzzyFreq_idempotent (-20)%R). lra.
Defined.

(** X5: the quantizer is monotone: a higher frequency never quantizes
    lower. *)
Theorem fuzzyFreq_monotone (f g : R) :
  (-1000000000000000 <= f)%R → (f <= g)%R → (g <= 1000000000000000)%R →
  (fuzzyFreq f <= fuzzyFreq g)%R.
Proof.
  intros H1 H2 H3.
  destruct (fuzzyFreq_trunc f ltac:(lra)) as [-> _].
  destruct (fuzzyFreq_trunc g ltac:(lra)) as [-> _].
  apply IZR_le. apply Z.mul_le_mono_nonneg_r; [lia|].
  apply Rtrunc_mono. lra.
Qed.

Lemma fuzzyFreq_monotone_witness : (fuzzyFreq 444.9 <= fuzzyFreq 445.0)%R.
Proof. apply (fuzzyFreq_monotone 444.9%R 445.0%R); lra. Defined.

(** X6: below -5 the quantizer does not round to the nearest multiple of
    10: its result lies above the input, by at least 5 and by less than
    15. *)
Theorem fuzzyFreq_below_minus_5 (f : R) :
  (-1000000000000000 <= f < -5)%R →
  (f + 5 <= fuzzyFreq f < f + 15)%R.
Proof.
  intros [H1 H2].
  destruct (fuzzyFreq_trunc f ltac:(lra)) as [-> _].
  destruct (Rtrunc_spec (f / 10 + 0.5)) as [_ H]. specialize (H ltac:(lra)).
  rewrite mult_IZR. lra.
Qed.

Lemma fuzzyFreq_below_minus_5_witness :
  (-20 + 5 <= fuzzyFreq (-20) < -20 + 15)%R.
Proof. apply (fuzzyFreq_below_minus_5 (-20)%R). lra. Defined.

(** ** Transcriber: panics, nil and the content of the table *)

Lemma transcribeStep_ok (t : Transcription) (count : Z) (v p : R) :
  length t = 12%nat →
  ∃ t' count', transcribeStep v p (t, count) = Ok (t', count') ∧
               length t' = 12%nat.
Proof.
  intros Hlen.
  destruct (transcribeStep_cases t count v p Hlen)
    as (c & _ & [(_ & _ & _ & E)|[_ E]]); rewrite E; do 2 eexists;
    (split; [reflexivity|]); [by rewrite length_insert|done].
Qed.

Lemma transcribeLoop_ok (freqs : list R) :
  ∀ (Pxx : list R) (t : Transcription) (count : Z),
    length t = 12%nat → (length freqs ≤ length Pxx)%nat →
    ∃ st', transcribeLoop freqs Pxx (t, count) = Ok st'.
Proof.
  induction freqs as [|v freqs IH]; intros Pxx t count Hlen Hle; [by eexists|].
  destruct Pxx as [|p Pxx]; simpl in Hle; [lia|]. cbn [transcribeLoop].
  destruct (transcribeStep_ok t count v p Hlen) as (t' & count' & -> & Hlen').
  apply IH; [done|lia].
Qed.

Lemma transcribeLoop_short (freqs : list R) :
  ∀ (Pxx : list R) (t : Transcription) (count : Z),
    length t = 12%nat → (length Pxx < length freqs)%nat →
    transcribeLoop freqs Pxx (t, count) = Panic IndexOutOfRange.
Proof.
  induction freqs as [|v freqs IH]; intros Pxx t count Hlen Hlt;
    simpl in Hlt; [lia|].
  destruct Pxx as [|p Pxx]; [done|]. simpl in Hlt. cbn [transcribeLoop].
  destruct (transcribeStep_ok t count v p Hlen) as (t' & count' & -> & Hlen').
  apply IH; [done|lia].
Qed.

Lemma transcribeLoop_take (freqs : list R) :
  ∀ (Pxx : list R) (st : Transcription * Z),
    transcribeLoop freqs Pxx st
    = transcribeLoop freqs (take (length freqs) Pxx) st.
Proof.
  induction freqs as [|v freqs IH]; intros Pxx st; [done|].
  destruct Pxx as [|p Pxx]; [done|]. cbn [length take transcribeLoop].
  destruct (transcribeStep v p st) as [st'|]; [|done]. simpl. apply IH.
Qed.

(** X7: [transcribe] panics, with an index out of range, exactly when [Pxx]
    is shorter than [freqs]; otherwise it returns.  Surplus powers are never
    read: the result is that for [Pxx] cut to the length of [freqs]. *)
Theorem transcribe_panics_iff (freqs Pxx : list R) :
  (transcribe freqs Pxx = Panic IndexOutOfRange
   ↔ (length Pxx < length freqs)%nat) ∧
  ((∃ r, transcribe freqs Pxx = Ok r) ↔ (length freqs ≤ length Pxx)%nat) ∧
  transcribe freqs Pxx = transcribe freqs (take (length freqs) Pxx).
Proof.
  assert (Hshort : (length Pxx < length freqs)%nat →
                   transcribe freqs Pxx = Panic IndexOutOfRange).
  { intros H. unfold transcribe. by rewrite transcribeLoop_short. }
  assert (Hok : (length freqs ≤ length Pxx)%nat →
                ∃ r, transcribe freqs Pxx = Ok r).
  { intros H. unfold transcribe.
    destruct (transcribeLoop_ok freqs Pxx (replicate 12 zeroChroma) 0 eq_refl H)
      as [st' Hst]. change (Z.to_nat MAX_NOTE) with 12%nat. rewrite Hst.
    by eexists. }
  split; [split|split; [split|]]; try done.
  - intros Hp. destruct (Nat.lt_ge_cases (length Pxx) (length freqs)); [done|].
    destruct (Hok ltac:(done)) as [r Hr]. by rewrite Hr in Hp.
  - intros [r Hr]. destruct (Nat.lt_ge_cases (length Pxx) (length freqs)) as [Hlt|];
      [|done]. by rewrite (Hshort Hlt) in Hr.
  - unfold transcribe. by rewrite transcribeLoop_take.
Qed.

Lemma transcribe_panics_iff_witness :
  transcribe [440%R; 880%R] [500%R] = Panic IndexOutOfRange ∧
  (∃ r, transcribe [440%R] [500%R; 200%R] = Ok r) ∧
  transcribe [440%R] [500%R; 200%R]
  = transcribe [440%R] (take (length [440%R]) [500%R; 200%R]).
Proof.
  split; [|split].
  - apply (proj1 (transcribe_panics_iff [440%R; 880%R] [500%R])). simpl. lia.
  - apply (proj1 (proj2 (transcribe_panics_iff [440%R] [500%R; 200%R]))).
    simpl. lia.
  - apply (proj2 (proj2 (transcribe_panics_iff [440%R] [500%R; 200%R]))).
Defined.

Lemma transcribeLoop_count (freqs : list R) :
  ∀ (Pxx : list R) (t t' : Transcription) (count count' : Z),
    length t = 12%nat → 0 <= count →
    count + Z.of_nat (length freqs) <= max_int64 →
    transcribeLoop freqs Pxx (t, count) = Ok (t', count') →
    count <= count' <= count + Z.of_nat (length freqs).
Proof.
  induction freqs as [|v freqs IH]; intros Pxx t t' count count' Hlen H0 Hmax Hl.
  - injection Hl as <- <-. simpl. lia.
  - destruct Pxx as [|p Pxx]; [done|]. cbn [transcribeLoop] in Hl.
    rewrite length_cons in *.
    destruct (transcribeStep_cases t count v p Hlen)
      as (c & _ & [(_ & _ & _ & E)|[_ E]]); rewrite E in Hl; simpl in Hl.
    + rewrite wrap64_small in Hl by (unfold min_int64, max_int64 in *; lia).
      apply IH in Hl; [lia|by rewrite length_insert|lia|lia].
    + apply IH in Hl; [lia|done|lia|lia].
Qed.

Lemma transcribeLoop_from_zero (freqs : list R) :
  ∀ (Pxx : list R) (t' : Transcription) (count' : Z),
    Z.of_nat (length freqs) <= max_int64 →
    transcribeLoop freqs Pxx (replicate 12 zeroChroma, 0) = Ok (t', count') →
    (count' = 0 ↔ admissibleSamples freqs Pxx = []).
Proof.
  induction freqs as [|v freqs IH]; intros Pxx t' count' Hmax Hl.
  - injection Hl as <- <-. done.
  - destruct Pxx as [|p Pxx]; [done|]. cbn [transcribeLoop] in Hl.
    rewrite length_cons in Hmax. cbn [admissibleSamples].
    destruct (transcribeStep_cases (replicate 12 zeroChroma) 0 v p eq_refl)
      as (c & Hc & [(_ & Hp & Hv & E)|[Hn E]]); rewrite E in Hl; simpl in Hl.
    + rewrite (proj2 (Rgtb_true _ _) Hp), (proj2 (Rgtb_true _ _) Hv).
      change (wrap64 (0 + 1)) with 1 in Hl.
      apply transcribeLoop_count in Hl;
        [|by rewrite length_insert|done|unfold max_int64 in *; lia].
      split; [lia|done].
    + apply list_elem_of_lookup_2, elem_of_replicate in Hc as [-> _].
      assert (Hadm : Rgtb p LOWER_POWER_CUTOFF && Rgtb v LOWER_FREQ_CUTOFF
                     = false).
      { destruct (Rgtb p LOWER_POWER_CUTOFF) eqn:E1,
          (Rgtb v LOWER_FREQ_CUTOFF) eqn:E2; try done.
        apply Rgtb_true in E1, E2. exfalso. apply Hn.
        unfold LOWER_POWER_CUTOFF in *. simpl. lra. }
      rewrite Hadm. simpl. apply IH in Hl; [done|lia].
Qed.

(** X8: [transcribe] returns nil exactly when no sample passes both floors
    (the power floor and the frequency floor). *)
Theorem transcribe_nil_iff (freqs Pxx : list R) :
  (length freqs ≤ length Pxx)%nat →
  Z.of_nat (length freqs) <= max_int64 →
  (transcribe freqs Pxx = Ok None ↔ admissibleSamples freqs Pxx = []).
Proof.
  intros Hle Hmax. unfold transcribe. change (Z.to_nat MAX_NOTE) with 12%nat.
  destruct (transcribeLoop_ok freqs Pxx (replicate 12 zeroChroma) 0 eq_refl Hle)
    as [[t' count'] Hst].
  rewrite Hst. simpl.
  pose proof (transcribeLoop_from_zero freqs Pxx t' count' Hmax Hst) as Hiff.
  destruct (Z.eqb_spec count' 0) as [H0|H0]; split; try done.
  - intros _. by apply Hiff.
  - intros H. by apply Hiff in H.
Qed.

Lemma transcribe_nil_iff_witness :
  transcribe [(-3)%R; 440%R] [500%R; 100%R] = Ok None.
Proof.
  apply (transcribe_nil_iff [(-3)%R; 440%R] [500%R; 100%R]).
  - simpl. lia.
  - unfold max_int64. simpl. lia.
  - cbn [admissibleSamples]. Rcompare_eval. reflexivity.
Defined.

Lemma tableInv_step (seen : list (R * R)) (t t' : Transcription)
    (count count' : Z) (v p : R) :
  tableInv seen t → transcribeStep v p (t, count) = Ok (t', count') →
  tableInv
    (seen ++ (if Rgtb p LOWER_POWER_CUTOFF && Rgtb v LOWER_FREQ_CUTOFF
              then [(v, p)] else []))
    t'.
Proof.
  intros (Hlen & I2 & I3) Hs.
  pose proof (freqNote_range v) as [Hn0 _].
  destruct (transcribeStep_cases t count v p Hlen)
    as (c0 & Hc0 & [(Hlt & Hp & Hv & E)|[Hn E]]);
    rewrite E in Hs; injection Hs as <- <-.
  - rewrite (proj2 (Rgtb_true _ _) Hp), (proj2 (Rgtb_true _ _) Hv). simpl.
    assert (Hi : (Z.to_nat (freqNote v) < length t)%nat)
      by (by eapply lookup_lt_Some).
    split; [by rewrite length_insert|]. split.
    + intros i c Hc. destruct (decide (i = Z.to_nat (freqNote v))) as [->|Hne].
      * rewrite list_lookup_insert_eq in Hc by done. injection Hc as <-.
        right. simpl. split; [lia|]. exists v. split; [done|].
        split; [lia|]. apply elem_of_app. right. by apply list_elem_of_singleton.
      * rewrite list_lookup_insert_ne in Hc by done.
        destruct (I2 i c Hc) as [->|(HN & f & Hf & Hfn & Hin)]; [by left|].
        right. split; [done|]. exists f. repeat split; try done.
        apply elem_of_app. by left.
    + intros f p0 Hin. apply elem_of_app in Hin as [Hin|Hin].
      * destruct (I3 f p0 Hin) as (c & Hc & Hle).
        destruct (decide (Z.to_nat (freqNote f) = Z.to_nat (freqNote v)))
          as [Heq|Hne].
        -- eexists. rewrite Heq, list_lookup_insert_eq by done.
           split; [done|]. simpl. rewrite Heq, Hc0 in Hc. injection Hc as <-.
           lra.
        -- exists c. by rewrite list_lookup_insert_ne.
      * apply list_elem_of_singleton in Hin. injection Hin as -> ->.
        eexists. rewrite list_lookup_insert_eq by done. split; [done|].
        simpl. lra.
  - split; [done|]. split.
    + intros i c Hc.
      destruct (I2 i c Hc) as [->|(HN & f & Hf & Hfn & Hin)]; [by left|].
      right. split; [done|]. exists f. repeat split; try done.
      apply elem_of_app. by left.
    + intros f p0 Hin. apply elem_of_app in Hin as [Hin|Hin]; [by apply I3|].
      destruct (Rgtb p LOWER_POWER_CUTOFF) eqn:E1,
        (Rgtb v LOWER_FREQ_CUTOFF) eqn:E2; simpl in Hin;
        try by apply elem_of_nil in Hin.
      apply list_elem_of_singleton in Hin. injection Hin as -> ->.
      apply Rgtb_true in E1, E2. exists c0. split; [done|].
      destruct (Rle_dec p (Chroma_Strength c0)); [done|].
      exfalso. apply Hn. lra.
Qed.

Lemma tableInv_loop (freqs : list R) :
  ∀ (Pxx : list R) (seen : list (R * R)) (t t' : Transcription)
    (count count' : Z),
    tableInv seen t → transcribeLoop freqs Pxx (t, count) = Ok (t', count') →
    tableInv (seen ++ admissibleSamples freqs Pxx) t'.
Proof.
  induction freqs as [|v freqs IH]; intros Pxx seen t t' count count' Hinv Hl.
  - injection Hl as <- <-. simpl. by rewrite app_nil_r.
  - destruct Pxx as [|p Pxx]; [done|]. cbn [transcribeLoop] in Hl.
    destruct (transcribeStep v p (t, count)) as [[t1 count1]|] eqn:Hs; [|done].
    cbn [admissibleSamples]. rewrite app_assoc.
    eapply IH; [|exact Hl]. by eapply tableInv_step.
Qed.

(** X9: in a transcription that [transcribe] returns, every bin is either
    the zero value or carries its own index as note, with the quantized
    frequency and the power of a sample of that pitch class that passed both
    floors; and no sample that passed both floors has more power than the
    bin of its pitch class. *)
Theorem transcribe_table (freqs Pxx : list R) (t : Transcription) :
  transcribe freqs Pxx = Ok (Some t) →
  tableInv (admissibleSamples freqs Pxx) t.
Proof.
  unfold transcribe. intros H.
  destruct (transcribeLoop freqs Pxx _) as [[t' count]|] eqn:Hl; [|done].
  simpl in H. destruct (count =? 0); [done|]. injection H as ->.
  apply (tableInv_loop freqs Pxx [] _ _ _ _) in Hl; [done|].
  split; [reflexivity|]. split.
  - intros i c Hc. left.
    by apply list_elem_of_lookup_2, elem_of_replicate in Hc as [-> _].
  - intros f p Hin. by apply elem_of_nil in Hin.
Qed.

Lemma transcribe_table_witness :
  tableInv (admissibleSamples [440.0%R] [500%R])
    (<[Z.to_nat (freqNote 440.0) :=
         mkChroma (freqNote 440.0) (fuzzyFreq 440.0) 500]>
       (replicate 12 zeroChroma)).
Proof.
  apply (transcribe_table [440.0%R] [500%R]).
  apply transcribe_single; unfold LOWER_POWER_CUTOFF, LOWER_FREQ_CUTOFF; lra.
Defined.

(** ** Power key: the bytes follow the strengths *)

Lemma Int_part_mono (x y : R) : (x <= y)%R → Int_part x <= Int_part y.
Proof.
  intros Hxy. destruct (Z.le_gt_cases (Int_part x) (Int_part y)) as [|Hgt];
    [done|].
  exfalso. assert (H1 : Int_part y + 1 <= Int_part x) by lia.
  apply IZR_le in H1. rewrite plus_IZR in H1.
  destruct (Int_part_bounds x), (Int_part_bounds y). lra.
Qed.

Lemma audioKey_example (Sprintf_e : R → string) (sha1_Sum : string → list Z) :
  audioKey Sprintf_e sha1_Sum (Some example_Transcription)
  = Some [0; 8; 4; 0; 0; 0; 0; 0; 0; 0; 0; 0].
Proof.
  destruct example_Transcription_wf as [Hwf Hmax].
  destruct (audioKey_general Sprintf_e sha1_Sum example_Transcription 8%R
              Hwf Hmax ltac:(lra)) as (key & -> & _ & -> & _).
  unfold example_Transcription. cbn [map Chroma_Strength].
  rewrite (roundHalfUp_IZR (0 / 8 * 8) 0) by lra.
  rewrite (roundHalfUp_IZR (8 / 8 * 8) 8) by lra.
  rewrite (roundHalfUp_IZR (4 / 8 * 8) 4) by lra.
  reflexivity.
Qed.

(** X10: the power key keeps the order of the strengths: of two bins, the
    one with no more strength gets no larger a byte; and an empty bin
    (strength 0) gets the byte 0. *)
Theorem audioKey_follows_strength (Sprintf_e : R → string)
    (sha1_Sum : string → list Z) (t : Transcription) (m : R)
    (key : list Z) :
  wf_Transcription t → max_strength t m → (0 < m)%R →
  audioKey Sprintf_e sha1_Sum (Some t) = Some key →
  ∀ (i j : nat) (ci cj : Chroma) (bi bj : Z),
    t !! i = Some ci → t !! j = Some cj →
    key !! i = Some bi → key !! j = Some bj →
    ((Chroma_Strength ci <= Chroma_Strength cj)%R → bi <= bj) ∧
    (Chroma_Strength ci = 0%R → bi = 0).
Proof.
  intros Hwf Hmax Hm Hkey i j ci cj bi bj Hi Hj Hbi Hbj.
  destruct (audioKey_general Sprintf_e sha1_Sum t m Hwf Hmax Hm)
    as (key' & Hkey' & _ & Hmap & _).
  rewrite Hkey in Hkey'. injection Hkey' as <-. subst key.
  change (map ?f t) with (f <$> t) in Hbi, Hbj.
  rewrite list_lookup_fmap, Hi in Hbi. rewrite list_lookup_fmap, Hj in Hbj.
  simpl in Hbi, Hbj. injection Hbi as <-. injection Hbj as <-.
  pose proof (Rinv_0_lt_compat m Hm) as Hinv.
  split.
  - intros Hle. unfold roundHalfUp. apply Int_part_mono. unfold Rdiv.
    assert (Chroma_Strength ci * / m <= Chroma_Strength cj * / m)%R
      by (apply Rmult_le_compat_r; lra).
    lra.
  - intros ->. apply roundHalfUp_IZR. unfold Rdiv. lra.
Qed.

Lemma audioKey_follows_strength_witness :
  ((4 <= 8)%R → 4 <= 8) ∧ (4%R = 0%R → 4 = 0).
Proof.
  destruct example_Transcription_wf as [Hwf Hmax].
  apply (audioKey_follows_strength (λ _, EmptyString) (λ _, [])
           example_Transcription 8%R [0; 8; 4; 0; 0; 0; 0; 0; 0; 0; 0; 0]
           Hwf Hmax ltac:(lra) (audioKey_example _ _)
           2%nat 1%nat (mkChroma 2 0 4) (mkChroma 1 0 8) 4 8
           eq_refl eq_refl eq_refl eq_refl).
Defined.

(** ** Candidate selectors: panics *)

Lemma topLoop_panics (Pxx : list R) :
  ∀ (freqs : list R) (cs : candidates),
    (Exists (λ p, (LOWER_POWER_CUTOFF < p)%R) (drop (length freqs) Pxx) →
     topLoop Pxx freqs cs = Panic IndexOutOfRange) ∧
    (¬ Exists (λ p, (LOWER_POWER_CUTOFF < p)%R) (drop (length freqs) Pxx) →
     ∃ cs', topLoop Pxx freqs cs = Ok cs').
Proof.
  induction Pxx as [|v Pxx IH]; intros freqs cs.
  - rewrite drop_nil. split; [by intros H%Exists_nil|by eexists].
  - cbn [topLoop]. destruct freqs as [|f freqs]; cbn [length drop tail].
    + destruct (Rgtb v LOWER_POWER_CUTOFF) eqn:E.
      * apply Rgtb_true in E. split; [done|]. intros H. exfalso. apply H.
        by apply Exists_cons_hd.
      * apply Rgtb_false in E. specialize (IH [] cs). simpl in IH.
        rewrite drop_0 in IH. destruct IH as [IH1 IH2]. split.
        -- intros H. apply Exists_cons in H as [H|H]; [lra|by apply IH1].
        -- intros H. apply IH2. intros H'. apply H. by apply Exists_cons_tl.
    + destruct (Rgtb v LOWER_POWER_CUTOFF); apply IH.
Qed.

Lemma bandLoop_panics (Pxx : list R) :
  ∀ (freqs : list R) (st : gmap Z R * gmap Z R),
    (Exists (λ p, (LOWER_POWER_CUTOFF < p)%R) (drop (length freqs) Pxx) →
     bandLoop Pxx freqs st = Panic IndexOutOfRange) ∧
    (¬ Exists (λ p, (LOWER_POWER_CUTOFF < p)%R) (drop (length freqs) Pxx) →
     ∃ st', bandLoop Pxx freqs st = Ok st').
Proof.
  induction Pxx as [|v Pxx IH]; intros freqs st.
  - rewrite drop_nil. split; [by intros H%Exists_nil|by eexists].
  - cbn [bandLoop]. destruct freqs as [|f freqs]; cbn [length drop tail].
    + destruct (Rgtb v LOWER_POWER_CUTOFF) eqn:E.
      * apply Rgtb_true in E. split; [done|]. intros H. exfalso. apply H.
        by apply Exists_cons_hd.
      * apply Rgtb_false in E. specialize (IH [] st). simpl in IH.
        rewrite drop_0 in IH. destruct IH as [IH1 IH2]. split.
        -- intros H. apply Exists_cons in H as [H|H]; [lra|by apply IH1].
        -- intros H. apply IH2. intros H'. apply H. by apply Exists_cons_tl.
    + destruct (Rgtb v LOWER_POWER_CUTOFF); apply IH.
Qed.

(** X11: each selector panics, with an index out of range, exactly when a
    power above the power floor sits at an index that [freqs] does not
    have; powers at or below the floor may go without a frequency. *)
Theorem selectors_panic_iff (mapRange : gmap Z R → list (Z * R))
    (freqs Pxx : list R) :
  (Exists (λ p, (LOWER_POWER_CUTOFF < p)%R) (drop (length freqs) Pxx) →
   getTopCandidates freqs Pxx = Panic IndexOutOfRange ∧
   getBandedCandidates mapRange freqs Pxx = Panic IndexOutOfRange) ∧
  (¬ Exists (λ p, (LOWER_POWER_CUTOFF < p)%R) (drop (length freqs) Pxx) →
   (∃ r, getTopCandidates freqs Pxx = Ok r) ∧
   (∃ r, getBandedCandidates mapRange freqs Pxx = Ok r)).
Proof.
  split; intros H.
  - unfold getTopCandidates, getBandedCandidates.
    rewrite (proj1 (topLoop_panics Pxx freqs []) H).
    by rewrite (proj1 (bandLoop_panics Pxx freqs (∅, ∅)) H).
  - unfold getTopCandidates, getBandedCandidates.
    destruct (proj2 (topLoop_panics Pxx freqs []) H) as [cs ->].
    destruct (proj2 (bandLoop_panics Pxx freqs (∅, ∅)) H) as [[hs hp] ->].
    simpl. split; [|by eexists].
    destruct (_ <? _); by eexists.
Qed.

Lemma selectors_panic_iff_witness :
  (getTopCandidates [440%R] [50%R; 500%R] = Panic IndexOutOfRange ∧
   getBandedCandidates map_to_list [440%R] [50%R; 500%R]
   = Panic IndexOutOfRange) ∧
  ((∃ r, getTopCandidates [440%R] [500%R; 50%R] = Ok r) ∧
   (∃ r, getBandedCandidates map_to_list [440%R] [500%R; 50%R] = Ok r)).
Proof.
  split.
  - apply (proj1 (selectors_panic_iff map_to_list [440%R] [50%R; 500%R])).
    simpl. apply Exists_cons_hd. unfold LOWER_POWER_CUTOFF. lra.
  - apply (proj2 (selectors_panic_iff map_to_list [440%R] [500%R; 50%R])).
    simpl. intros H. apply Exists_cons in H as [H|H].
    + unfold LOWER_POWER_CUTOFF in H. lra.
    + by apply Exists_nil in H.
Defined.

(** ** Banded selector: bands and their number *)

Lemma getBandedCandidates_one_per_band_witness :
  StronglySorted (descBy candidate_Freq)
    [mkCandidate 4100 200; mkCandidate 2800 200; mkCandidate 690 300;
     mkCandidate 690 200] ∧
  ∃ highScores highPoints : gmap Z R,
    [mkCandidate 4100 200; mkCandidate 2800 200; mkCandidate 690 300;
     mkCandidate 690 200]
    ≡ₚ map (bandCandidate highScores) (map_to_list highPoints) ∧
    NoDup (map fst (map_to_list highPoints)) ∧
    bandInv (admissibleSamples tie_freqs tie_Pxx) (highScores, highPoints).
Proof.
  apply (getBandedCandidates_one_per_band map_to_list tie_freqs tie_Pxx).
  - apply rangeOrder_map_to_list.
  - apply getBandedCandidates_tie.
Defined.

Lemma admissibleSamples_elem (freqs : list R) :
  ∀ (Pxx : list R) (f v : R),
    (f, v) ∈ admissibleSamples freqs Pxx →
    f ∈ freqs ∧ v ∈ Pxx ∧ (LOWER_POWER_CUTOFF < v)%R ∧
    (LOWER_FREQ_CUTOFF < f)%R.
Proof.
  induction freqs as [|f0 freqs IH]; intros Pxx f v Hin; simpl in Hin.
  - by apply elem_of_nil in Hin.
  - destruct Pxx as [|v0 Pxx]; [by apply elem_of_nil in Hin|].
    apply elem_of_app in Hin as [Hin|Hin].
    + destruct (Rgtb v0 LOWER_POWER_CUTOFF) eqn:E1,
        (Rgtb f0 LOWER_FREQ_CUTOFF) eqn:E2; simpl in Hin;
        try by apply elem_of_nil in Hin.
      apply list_elem_of_singleton in Hin. injection Hin as -> ->.
      apply Rgtb_true in E1, E2. repeat split; try done; by left.
    + destruct (IH Pxx f v Hin) as (H1 & H2 & H3 & H4).
      repeat split; try done; by right.
Qed.

Lemma getBandedCandidates_maps (mapRange : gmap Z R → list (Z * R))
    (freqs Pxx : list R) (cs : candidates) :
  getBandedCandidates mapRange freqs Pxx = Ok cs →
  ∃ highScores highPoints : gmap Z R,
    cs = sort_Sort (sort_Reverse ByFreq_Less)
           (map (bandCandidate highScores) (mapRange highPoints)) ∧
    bandInv (admissibleSamples freqs Pxx) (highScores, highPoints).
Proof.
  intros Hcs. destruct (bandLoop Pxx freqs (∅, ∅)) as [[hs hp]|p] eqn:Hl.
  - rewrite (getBandedCandidates_unfold _ _ _ _ _ Hl) in Hcs.
    injection Hcs as <-. exists hs, hp. split; [done|].
    apply (bandLoop_inv Pxx freqs [] (∅, ∅)); [|done].
    split; [|split]; simpl.
    + intros k f Hk. by rewrite lookup_empty in Hk.
    + intros k v Hk. by rewrite lookup_empty in Hk.
    + intros f v Hin. by apply elem_of_nil in Hin.
  - unfold getBandedCandidates in Hcs. by rewrite Hl in Hcs.
Qed.

(** X15: band [k >= 0] takes every frequency from [1378.125 * (k - 0.5)]
    up to 0.001 Hz below [1378.125 * (k + 0.5)]: the bands have the width
    1378.125 Hz (a quarter of 5512.5) and are centred on its multiples, so
    band 0 ends at 689.0625 Hz.  Conversely a frequency between 0 and 1e9 Hz
    of band [k] lies within 0.001 Hz of that interval.  The margin of
    0.001 Hz keeps away from the upper edge, where the rounding of the
    float64 operations decides the band. *)
Theorem freqBand_intervals (f : R) (k : Z) :
  (0 <= k →
   (1378.125 * (IZR k - 0.5) <= f <= 1378.125 * (IZR k + 0.5) - 0.001)%R →
   (f <= 1000000000)%R →
   freqBand f = k) ∧
  ((0 <= f <= 1000000000)%R → freqBand f = k →
   (1378.125 * (IZR k - 0.5) - 0.001 <= f
    <= 1378.125 * (IZR k + 0.5) + 0.001)%R).
Proof.
  set (x := (f / 5512.5 * 4 + 0.5)%R). split.
  - intros Hk [H1 H2] H3.
    assert (Hk' : (0 <= IZR k)%R) by (by apply IZR_le).
    assert (Hx : (IZR k <= x < IZR k + 1)%R) by (unfold x; lra).
    assert (Hk'' : k < 725626).
    { apply lt_IZR. unfold x in Hx. lra. }
    apply freqBand_eval; [lia|done].
  - intros [Hf0 Hf1] Hband.
    assert (Hz : 0 <= Int_part x < 725626)
      by (apply Int_part_le_lt; unfold x; lra).
    assert (E : freqBand f = Int_part x).
    { apply freqBand_eval; [lia|]. apply Int_part_bounds. }
    rewrite E in Hband. destruct (Int_part_bounds x) as [H1 H2].
    rewrite Hband in H1, H2. unfold x in *. lra.
Qed.

Lemma freqBand_intervals_witness :
  freqBand 689 = 0 ∧ freqBand 689.5 = 1 ∧ freqBand 5512.5 = 4 ∧
  (1378.125 * (IZR 2 - 0.5) - 0.001 <= 2800
   <= 1378.125 * (IZR 2 + 0.5) + 0.001)%R.
Proof.
  split; [|split; [|split]].
  - apply (proj1 (freqBand_intervals 689 0)); [lia|lra|lra].
  - apply (proj1 (freqBand_intervals 689.5 1)); [lia|lra|lra].
  - apply (proj1 (freqBand_intervals 5512.5 4)); [lia|lra|lra].
  - apply (proj2 (freqBand_intervals 2800 2)); [lra|].
    apply freqBand_eval; [lia|lra].
Defined.

Lemma freqBand_below_nyquist (f : R) :
  (0 <= f <= 11025 / 2)%R → 0 <= freqBand f <= 4.
Proof.
  intros [H0 H1].
  set (x := (f / 5512.5 * 4 + 0.5)%R).
  assert (Hz : 0 <= Int_part x < 5) by (apply Int_part_le_lt; unfold x; lra).
  rewrite (freqBand_eval f (Int_part x)); [lia|lia|apply Int_part_bounds].
Qed.

(** X13: when no frequency exceeds the Nyquist limit 5512.5 Hz, the banded
    selector returns at most five candidates. *)
Theorem getBandedCandidates_at_most_five
    (mapRange : gmap Z R → list (Z * R)) (freqs Pxx : list R)
    (cs : candidates) :
  rangeOrder mapRange →
  Forall (λ f, (f <= 11025 / 2)%R) freqs →
  getBandedCandidates mapRange freqs Pxx = Ok cs →
  (length cs ≤ 5)%nat.
Proof.
  intros Hrange Hfreqs Hcs.
  destruct (getBandedCandidates_maps _ _ _ _ Hcs) as (hs & hp & -> & I1 & _ & _).
  rewrite sort_Sort_length, length_map, (Permutation_length (Hrange hp)).
  rewrite <- (length_fmap fst).
  change 5%nat with (length [0; 1; 2; 3; 4]).
  apply submseteq_length, NoDup_submseteq; [apply NoDup_fst_map_to_list|].
  intros k Hk. apply list_elem_of_fmap in Hk as ([k' f] & -> & Hkf).
  apply elem_of_map_to_list in Hkf. simpl in *.
  destruct (I1 k' f Hkf) as (Hband & v & _ & Hin).
  apply admissibleSamples_elem in Hin as (Hf & _ & _ & Hpos).
  rewrite Forall_forall in Hfreqs. specialize (Hfreqs f Hf).
  unfold LOWER_FREQ_CUTOFF in Hpos.
  pose proof (freqBand_below_nyquist f ltac:(lra)) as Hr. rewrite Hband in Hr.
  apply list_elem_of_In. simpl. lia.
Qed.

Lemma getBandedCandidates_at_most_five_witness :
  (length [mkCandidate 4100 200; mkCandidate 2800 200; mkCandidate 690 300;
           mkCandidate 690 200] ≤ 5)%nat.
Proof.
  apply (getBandedCandidates_at_most_five map_to_list tie_freqs tie_Pxx).
  - apply rangeOrder_map_to_list.
  - unfold tie_freqs. repeat constructor; lra.
  - apply getBandedCandidates_tie.
Defined.

(** X14: the banded selector returns the empty list exactly when no sample
    passes both floors. *)
Theorem getBandedCandidates_empty_iff
    (mapRange : gmap Z R → list (Z * R)) (freqs Pxx : list R)
    (cs : candidates) :
  rangeOrder mapRange →
  getBandedCandidates mapRange freqs Pxx = Ok cs →
  (cs = [] ↔ admissibleSamples freqs Pxx = []).
Proof.
  intros Hrange Hcs.
  destruct (getBandedCandidates_maps _ _ _ _ Hcs)
    as (hs & hp & -> & I1 & I2 & I3).
  simpl in *.
  assert (Hlen : length (sort_Sort (sort_Reverse ByFreq_Less)
                           (map (bandCandidate hs) (mapRange hp)))
                 = length (map_to_list hp)).
  { by rewrite sort_Sort_length, length_map, (Permutation_length (Hrange hp)). }
  split.
  - intros Hnil. rewrite Hnil in Hlen.
    destruct (admissibleSamples freqs Pxx) as [|[f v] l] eqn:Hadm; [done|].
    exfalso.
    destruct (I3 f v ltac:(by left)) as (v' & Hv' & _).
    destruct (I2 _ _ Hv') as [f' Hf'].
    apply elem_of_map_to_list in Hf'.
    destruct (map_to_list hp); [by apply elem_of_nil in Hf'|done].
  - intros Hadm. rewrite Hadm in I1.
    destruct (map_to_list hp) as [|[k f] l] eqn:Hl.
    + by apply nil_length_inv.
    + exfalso. assert (Hkf : hp !! k = Some f).
      { apply elem_of_map_to_list. rewrite Hl. by left. }
      destruct (I1 k f Hkf) as (_ & v & _ & Hin). by apply elem_of_nil in Hin.
Qed.

Lemma getBandedCandidates_below_floor :
  getBandedCandidates map_to_list [440%R] [50%R] = Ok [].
Proof.
  unfold getBandedCandidates. cbn [bandLoop]. Rcompare_eval. reflexivity.
Qed.

Lemma getBandedCandidates_empty_iff_witness :
  (([] : candidates) = [] ↔ admissibleSamples [440%R] [50%R] = []) ∧
  ([mkCandidate 4100 200; mkCandidate 2800 200; mkCandidate 690 300;
    mkCandidate 690 200] = []
   ↔ admissibleSamples tie_freqs tie_Pxx = []).
Proof.
  split.
  - apply (getBandedCandidates_empty_iff map_to_list [440%R] [50%R] []).
    + apply rangeOrder_map_to_list.
    + apply getBandedCandidates_below_floor.
  - apply (getBandedCandidates_empty_iff map_to_list tie_freqs tie_Pxx).
    + apply rangeOrder_map_to_list.
    + apply getBandedCandidates_tie.
Defined.

(** ** logSamples *)

Lemma logStep_bottom (f x : R) (s : logStats) :
  (LOWER_POWER_CUTOFF < x)%R →
  log_bottom s = (-1.0)%R →
  log_bottom (logStep f x s) = log_bottom s ∧
  log_bottomf (logStep f x s) = log_bottomf s.
Proof.
  intros Hx Hb. unfold logStep, LOWER_POWER_CUTOFF in *. cbv zeta.
  destruct (Rgtb x (log_top s)); cbn [log_bottom];
    rewrite Hb, (proj2 (Rltb_false x (-1.0))) by lra; by rewrite <- Hb.
Qed.

Lemma logLoop_bottom (Pxx : list R) :
  ∀ (freqs : list R) (s s' : logStats),
    log_bottom s = (-1.0)%R → logLoop Pxx freqs s = Ok s' →
    log_bottom s' = (-1.0)%R ∧ log_bottomf s' = log_bottomf s.
Proof.
  induction Pxx as [|x Pxx IH]; intros freqs s s' Hb Hl.
  - by injection Hl as <-.
  - cbn [logLoop] in Hl. destruct (Rgtb x LOWER_POWER_CUTOFF) eqn:Ex.
    + destruct freqs as [|f freqs]; [done|]. apply Rgtb_true in Ex.
      destruct (Rgtb f LOWER_FREQ_CUTOFF).
      * destruct (logStep_bottom f x s Ex Hb) as [H1 H2].
        apply IH in Hl; [|by rewrite H1]. by rewrite <- H2.
      * by apply IH in Hl.
    + by apply IH in Hl.
Qed.

(** X16: [logSamples] logs only when asked to, and the "bottom" power and
    frequency that it logs are always the initial -1 and 0: a power that is
    compared with the bottom has passed the power floor, so it is never
    below -1. *)
Theorem logSamples_bottom (verbose : bool) (freqs Pxx : list R)
    (line : logLine) :
  logSamples verbose freqs Pxx = Ok (Some line) →
  verbose = true ∧ line_bottom line = (-1.0)%R ∧ line_bottomf line = 0%R.
Proof.
  unfold logSamples. destruct verbose; simpl; [|done]. intros H.
  destruct (logLoop Pxx freqs _) as [s|] eqn:Hl; [|done]. simpl in H.
  destruct (0 <? log_count s); [|done]. injection H as <-.
  apply logLoop_bottom in Hl as [H1 H2]; done.
Qed.

Lemma sumPowers_snoc (seen : list (R * R)) (f x : R) :
  sumPowers (seen ++ [(f, x)]) = (sumPowers seen + x)%R.
Proof.
  unfold sumPowers. induction seen as [|[f0 x0] l IH]; simpl; [lra|].
  rewrite IH. lra.
Qed.

Lemma logStep_inv (seen : list (R * R)) (f x : R) (s : logStats) :
  logInv seen s → (LOWER_POWER_CUTOFF < x)%R →
  log_bottom s = (-1.0)%R →
  Z.of_nat (length seen) < max_int64 →
  logInv (seen ++ [(f, x)]) (logStep f x s).
Proof.
  intros (Havg & Hcount & Htop & Hwho) Hx Hb Hlen.
  unfold LOWER_POWER_CUTOFF in Hx.
  assert (Hc : wrap64 (log_count s + 1) = Z.of_nat (length (seen ++ [(f, x)]))).
  { rewrite length_app, Hcount. simpl.
    rewrite wrap64_small by (unfold min_int64, max_int64 in *; lia). lia. }
  unfold logStep. cbv zeta.
  destruct (Rgtb x (log_top s)) eqn:E; cbn [log_bottom log_top];
    rewrite Hb, (proj2 (Rltb_false x (-1.0))) by lra;
    (split; [by cbn; rewrite sumPowers_snoc, Havg|]); (split; [by cbn|]); cbn.
  - apply Rgtb_true in E. split.
    + intros f0 x0 Hin. apply elem_of_app in Hin as [Hin|Hin].
      * specialize (Htop f0 x0 Hin). lra.
      * apply list_elem_of_singleton in Hin. injection Hin as -> ->. lra.
    + right. apply elem_of_app. right. by apply list_elem_of_singleton.
  - apply Rgtb_false in E. split.
    + intros f0 x0 Hin. apply elem_of_app in Hin as [Hin|Hin]; [by apply (Htop f0)|].
      apply list_elem_of_singleton in Hin. by injection Hin as -> ->.
    + right. destruct Hwho as [(_ & H0 & _)|Hin]; [lra|].
      apply elem_of_app. by left.
Qed.

Lemma logLoop_inv (Pxx : list R) :
  ∀ (freqs : list R) (seen : list (R * R)) (s s' : logStats),
    logInv seen s → log_bottom s = (-1.0)%R →
    Z.of_nat (length seen + length Pxx) <= max_int64 →
    logLoop Pxx freqs s = Ok s' →
    logInv (seen ++ admissibleSamples freqs Pxx) s'.
Proof.
  induction Pxx as [|x Pxx IH]; intros freqs seen s s' Hinv Hb Hlen Hl.
  - injection Hl as <-. destruct freqs; simpl; by rewrite app_nil_r.
  - cbn [logLoop] in Hl. rewrite length_cons in Hlen.
    destruct (Rgtb x LOWER_POWER_CUTOFF) eqn:Ex.
    + destruct freqs as [|f freqs]; [done|]. cbn [admissibleSamples].
      rewrite Ex. apply Rgtb_true in Ex.
      destruct (Rgtb f LOWER_FREQ_CUTOFF) eqn:Ef; cbn [andb].
      * rewrite app_assoc. eapply IH; [| | |exact Hl].
        -- apply logStep_inv; [done..|lia].
        -- by destruct (logStep_bottom f x s Ex Hb) as [-> _].
        -- rewrite length_app. simpl. lia.
      * simpl. eapply IH; [done|done| |exact Hl]. lia.
    + destruct freqs as [|f freqs]; cbn [tail admissibleSamples] in *.
      * rewrite app_nil_r.
        assert (H := IH [] seen s s' Hinv Hb ltac:(lia) Hl).
        destruct Pxx; simpl in H; by rewrite app_nil_r in H.
      * rewrite Ex. simpl. eapply IH; [done|done| |exact Hl]. lia.
Qed.

(** X17: when [logSamples] logs, the count is the number of samples that
    passed both floors, "top" is the largest of their powers and comes with
    the frequency of a sample that has it, and the average is the sum of
    their powers divided by the number of all samples, counted or not.  It
    logs nothing exactly when no sample passed. *)
Theorem logSamples_line (freqs Pxx : list R) (r : option logLine) :
  Z.of_nat (length Pxx) <= max_int64 →
  logSamples true freqs Pxx = Ok r →
  match r with
  | None => admissibleSamples freqs Pxx = []
  | Some line =>
      line_count line = Z.of_nat (length (admissibleSamples freqs Pxx)) ∧
      (line_topf line, line_top line) ∈ admissibleSamples freqs Pxx ∧
      (∀ f x, (f, x) ∈ admissibleSamples freqs Pxx → (x <= line_top line)%R) ∧
      line_avg line
      = (sumPowers (admissibleSamples freqs Pxx) / IZR (Z.of_nat (length Pxx)))%R
  end.
Proof.
  intros Hlen. unfold logSamples. simpl.
  destruct (logLoop Pxx freqs _) as [s|] eqn:Hl; [|done]. simpl.
  apply (logLoop_inv Pxx freqs []) in Hl as (Havg & Hcount & Htop & Hwho).
  - simpl in *. destruct (Z.ltb_spec 0 (log_count s)) as [Hpos|Hpos];
      intros H; injection H as <-.
    + cbn. split; [done|]. split; [|split; [done|]].
      * destruct Hwho as [(Hnil & _)|Hin]; [|done].
        rewrite Hnil in Hcount. simpl in Hcount. lia.
      * unfold float_of_int. by rewrite Havg.
    + apply nil_length_inv. lia.
  - split; [done|]. split; [done|]. split; [|by left].
    intros f x Hin. by apply elem_of_nil in Hin.
  - reflexivity.
  - simpl. lia.
Qed.

Lemma logSamples_single :
  logSamples true [440%R] [500%R]
  = Ok (Some (mkLogLine 1 440 500 0 (-1.0) (500 / IZR 1))).
Proof.
  unfold logSamples. cbn [negb logLoop]. Rcompare_eval.
  unfold logStep. cbn [log_top log_bottom log_avg log_topf log_bottomf log_count].
  Rcompare_eval. cbn. Rcompare_eval. cbn. unfold float_of_int.
  change (wrap64 (0 + 1)) with 1. change (Z.of_nat 1) with 1.
  cbn. do 3 f_equal. lra.
Qed.

Lemma logSamples_bottom_witness :
  true = true ∧
  line_bottom (mkLogLine 1 440 500 0 (-1.0) (500 / IZR 1)) = (-1.0)%R ∧
  line_bottomf (mkLogLine 1 440 500 0 (-1.0) (500 / IZR 1)) = 0%R.
Proof.
  apply (logSamples_bottom true [440%R] [500%R] _ logSamples_single).
Defined.

Lemma logSamples_line_witness :
  line_count (mkLogLine 1 440 500 0 (-1.0) (500 / IZR 1))
  = Z.of_nat (length (admissibleSamples [440%R] [500%R])) ∧
  (line_topf (mkLogLine 1 440 500 0 (-1.0) (500 / IZR 1)),
   line_top (mkLogLine 1 440 500 0 (-1.0) (500 / IZR 1)))
  ∈ admissibleSamples [440%R] [500%R] ∧
  (∀ f x, (f, x) ∈ admissibleSamples [440%R] [500%R] →
          (x <= line_top (mkLogLine 1 440 500 0 (-1.0) (500 / IZR 1)))%R) ∧
  line_avg (mkLogLine 1 440 500 0 (-1.0) (500 / IZR 1))
  = (sumPowers (admissibleSamples [440%R] [500%R])
     / IZR (Z.of_nat (length [500%R])))%R.
Proof.
  apply (logSamples_line [440%R] [500%R] (Some _)).
  - unfold max_int64. simpl. lia.
  - apply logSamples_single.
Defined.

(** ** Swap *)

Lemma index_in_range {A : Type} (l : list A) (i : Z) :
  0 <= i < Z.of_nat (length l) →
  ∃ x, l !! Z.to_nat i = Some x ∧ index l i = Ok x.
Proof.
  intros Hi. unfold index.
  destruct (Z.ltb_spec i 0) as [|_]; [lia|].
  destruct (lookup_lt_is_Some_2 l (Z.to_nat i) ltac:(lia)) as [x Hx].
  exists x. by rewrite Hx.
Qed.

Lemma index_out_of_range {A : Type} (l : list A) (i : Z) :
  ¬ (0 <= i < Z.of_nat (length l)) → index l i = Panic IndexOutOfRange.
Proof.
  intros Hi. unfold index.
  destruct (Z.ltb_spec i 0) as [|Hge]; [done|].
  by rewrite (lookup_ge_None_2 l (Z.to_nat i)) by lia.
Qed.

Lemma index_lookup {A : Type} (l l' : list A) (i i' : Z) :
  0 <= i → 0 <= i' → l !! Z.to_nat i = l' !! Z.to_nat i' →
  index l i = index l' i'.
Proof.
  intros Hi Hi' H. unfold index.
  destruct (Z.ltb_spec i 0); [lia|]. destruct (Z.ltb_spec i' 0); [lia|].
  by rewrite H.
Qed.

Lemma swap_lookup {A : Type} (l : list A) (n m : nat) (x y : A) :
  l !! n = Some x → l !! m = Some y →
  ∀ k, <[m := x]> (<[n := y]> l) !! k
       = l !! (if decide (k = n) then m else if decide (k = m) then n else k).
Proof.
  intros Hx Hy k.
  assert (Hn : (n < length l)%nat) by (by eapply lookup_lt_Some).
  assert (Hm : (m < length l)%nat) by (by eapply lookup_lt_Some).
  destruct (decide (k = m)) as [->|Hkm].
  - rewrite list_lookup_insert_eq by (by rewrite length_insert).
    destruct (decide (m = n)) as [->|]; [|done]. by rewrite Hy, <- Hx.
  - rewrite list_lookup_insert_ne by done.
    destruct (decide (k = n)) as [->|Hkn].
    + by rewrite list_lookup_insert_eq.
    + by rewrite list_lookup_insert_ne.
Qed.

(** X18: [Swap] of [ByPxx] and of [ByFreq] with both indices in range
    exchanges the two elements and leaves the others and the length as they
    were, so the result is a permutation of the slice, and swapping again
    gives the slice back; with an index out of range it panics. *)
Theorem candidates_Swap_spec (a : candidates) (i j : Z) :
  (0 <= i < candidates_Len a → 0 <= j < candidates_Len a →
   ∃ a', candidates_Swap a i j = Ok a' ∧
         candidates_Len a' = candidates_Len a ∧
         a' ≡ₚ a ∧
         index a' i = index a j ∧
         index a' j = index a i ∧
         (∀ k, k ≠ i → k ≠ j → index a' k = index a k) ∧
         candidates_Swap a' i j = Ok a) ∧
  (¬ (0 <= i < candidates_Len a ∧ 0 <= j < candidates_Len a) →
   candidates_Swap a i j = Panic IndexOutOfRange).
Proof.
  unfold candidates_Len, candidates_Swap. split.
  - intros Hi Hj.
    destruct (index_in_range a i Hi) as (ai & Hai & Ei).
    destruct (index_in_range a j Hj) as (aj & Haj & Ej).
    pose proof (swap_lookup a _ _ ai aj Hai Haj) as Hsw.
    set (a' := <[Z.to_nat j := ai]> (<[Z.to_nat i := aj]> a)) in *.
    assert (Hlen : length a' = length a)
      by (unfold a'; by rewrite !length_insert).
    assert (Hi' : a' !! Z.to_nat i = Some aj).
    { rewrite Hsw. by destruct (decide _). }
    assert (Hj' : a' !! Z.to_nat j = Some ai).
    { rewrite Hsw. destruct (decide _) as [E|]; [by rewrite E|].
      by destruct (decide _). }
    exists a'. split; [by rewrite Ej, Ei|].
    split; [by rewrite Hlen|]. split; [|split; [|split; [|split]]].
    + apply Permutation_inj. split; [done|].
      exists (λ k, if decide (k = Z.to_nat i) then Z.to_nat j
                   else if decide (k = Z.to_nat j) then Z.to_nat i else k).
      split; [|exact Hsw].
      intros k1 k2. repeat destruct (decide _); congruence.
    + apply index_lookup; [lia..|]. by rewrite Hi', Haj.
    + apply index_lookup; [lia..|]. by rewrite Hj', Hai.
    + intros k Hki Hkj. unfold index.
      destruct (Z.ltb_spec k 0) as [|Hk]; [done|]. rewrite Hsw.
      destruct (decide _) as [E|]; [lia|]. destruct (decide _) as [E|]; [lia|].
      done.
    + assert (Ei' : index a' i = Ok aj).
      { unfold index. destruct (Z.ltb_spec i 0); [lia|]. by rewrite Hi'. }
      assert (Ej' : index a' j = Ok ai).
      { unfold index. destruct (Z.ltb_spec j 0); [lia|]. by rewrite Hj'. }
      rewrite Ej', Ei'. simpl. f_equal. apply list_eq. intros k.
      rewrite (swap_lookup a' _ _ aj ai Hi' Hj'), Hsw.
      repeat destruct (decide _); congruence.
  - intros Hn.
    destruct (decide (0 <= j < Z.of_nat (length a))) as [Hj|Hj].
    + destruct (index_in_range a j Hj) as (aj & _ & ->). simpl.
      rewrite (index_out_of_range a i) by tauto. reflexivity.
    + rewrite (index_out_of_range a j) by done. reflexivity.
Qed.

Lemma candidates_Swap_spec_witness :
  ∃ a', candidates_Swap [mkCandidate 10 1; mkCandidate 20 2; mkCandidate 30 3]
          0 2 = Ok a' ∧
        candidates_Len a'
        = candidates_Len [mkCandidate 10 1; mkCandidate 20 2; mkCandidate 30 3] ∧
        a' ≡ₚ [mkCandidate 10 1; mkCandidate 20 2; mkCandidate 30 3] ∧
        index a' 0
        = index [mkCandidate 10 1; mkCandidate 20 2; mkCandidate 30 3] 2 ∧
        index a' 2
        = index [mkCandidate 10 1; mkCandidate 20 2; mkCandidate 30 3] 0 ∧
        (∀ k, k ≠ 0 → k ≠ 2 →
              index a' k
              = index [mkCandidate 10 1; mkCandidate 20 2; mkCandidate 30 3] k) ∧
        candidates_Swap a' 0 2
        = Ok [mkCandidate 10 1; mkCandidate 20 2; mkCandidate 30 3].
Proof.
  apply (proj1 (candidates_Swap_spec
                  [mkCandidate 10 1; mkCandidate 20 2; mkCandidate 30 3] 0 2));
    unfold candidates_Len; simpl; lia.
Defined.

(** ** The assembler as a whole *)

Lemma transcribe_outcome (freqs Pxx : list R) :
  (length freqs ≤ length Pxx)%nat →
  Z.of_nat (length freqs) <= max_int64 →
  (admissibleSamples freqs Pxx = [] ∧ transcribe freqs Pxx = Ok None) ∨
  (admissibleSamples freqs Pxx ≠ [] ∧
   ∃ t, transcribe freqs Pxx = Ok (Some t)).
Proof.
  intros Hle Hmax. unfold transcribe.
  change (Z.to_nat MAX_NOTE) with 12%nat.
  destruct (transcribeLoop_ok freqs Pxx (replicate 12 zeroChroma) 0)
    as [[t' count'] Hl]; [by rewrite length_replicate|done|].
  rewrite Hl. simpl.
  pose proof (transcribeLoop_from_zero freqs Pxx t' count' Hmax Hl) as Hz.
  destruct (Z.eqb_spec count' 0) as [E|E].
  - left. split; [by apply Hz|done].
  - right. split; [|by eexists]. intros Hnil. by apply E, Hz.
Qed.

Lemma transcribe_short (freqs Pxx : list R) :
  (length Pxx < length freqs)%nat →
  transcribe freqs Pxx = Panic IndexOutOfRange.
Proof.
  intros Hlt. unfold transcribe. change (Z.to_nat MAX_NOTE) with 12%nat.
  rewrite transcribeLoop_short; [done|by rewrite length_replicate|done].
Qed.

Lemma transcribe_tableInv (freqs Pxx : list R) (t : Transcription) :
  transcribe freqs Pxx = Ok (Some t) →
  tableInv (admissibleSamples freqs Pxx) t.
Proof.
  unfold transcribe. intros H.
  destruct (transcribeLoop freqs Pxx _) as [[t' count]|] eqn:Hl; [|done].
  simpl in H. destruct (count =? 0); [done|]. injection H as ->.
  apply (tableInv_loop freqs Pxx [] _ _ _ _) in Hl; [done|].
  split; [reflexivity|]. split.
  - intros i c Hc. left.
    by apply list_elem_of_lookup_2, elem_of_replicate in Hc as [-> _].
  - intros f p Hin. by apply elem_of_nil in Hin.
Qed.

(** The bin with the largest strength of a table holds a loudest sample. *)
Lemma tableInv_peak (seen : list (R * R)) (t : Transcription) (m : R) :
  tableInv seen t → max_strength t m → (0 < m)%R →
  ∃ f c, (f, m) ∈ seen ∧
         (∀ f' p', (f', p') ∈ seen → (p' <= m)%R) ∧
         t !! Z.to_nat (freqNote f) = Some c ∧ Chroma_Strength c = m.
Proof.
  intros (Hlen & Hbins & Hseen) [Hall Hex] Hm.
  apply Exists_exists in Hex as (c & Hc & Hcm).
  apply list_elem_of_lookup_1 in Hc as [i Hi].
  destruct (Hbins i c Hi) as [->|(_ & f & _ & Hnote & Hin)].
  { simpl in Hcm. lra. }
  exists f, c. rewrite Hcm in Hin. split; [done|]. split.
  - intros f' p' Hin'. destruct (Hseen f' p' Hin') as (c' & Hc' & Hp').
    apply list_elem_of_lookup_2 in Hc'.
    rewrite Forall_forall in Hall. specialize (Hall c' Hc'). lra.
  - by rewrite Hnote, Nat2Z.id.
Qed.

Section AssemblerOutcome.

Context {Buffer : Type}.
Variable Buffer_Timestamp : Buffer → R.
Variable PwelchAnalysis OverlapAnalysis : Buffer → Z → list R * list R.
Variable Sprintf_e : R → string.
Variable sha1_Sum : string → list Z.
Variable mapRange : gmap Z R → list (Z * R).

Let New' :=
  New Buffer_Timestamp PwelchAnalysis OverlapAnalysis Sprintf_e sha1_Sum
    mapRange.

Let NewWith' :=
  New_with Buffer_Timestamp PwelchAnalysis OverlapAnalysis Sprintf_e sha1_Sum
    mapRange.

(** X19: for the spectrum that the chosen estimator returns, [New] panics
    when there are more frequencies than powers; otherwise it returns nil
    exactly when no sample passes both floors, and else a fingerprint with
    the frame's timestamp, no candidates, the transcription that
    [transcribe] returns and a key of twelve bytes. *)
Theorem New_outcome (sampleBlock : Buffer)
    (sampleRate optSpectralAnalyser : Z) (optVerbose : bool)
    (freqs Pxx : list R) :
  spectralAnalysis PwelchAnalysis OverlapAnalysis sampleBlock sampleRate
    optSpectralAnalyser = Ok (Pxx, freqs) →
  Z.of_nat (length freqs) <= max_int64 →
  ((length Pxx < length freqs)%nat →
   New' sampleBlock sampleRate optSpectralAnalyser optVerbose
   = Panic IndexOutOfRange) ∧
  ((length freqs ≤ length Pxx)%nat →
   (New' sampleBlock sampleRate optSpectralAnalyser optVerbose = Ok None
    ↔ admissibleSamples freqs Pxx = []) ∧
   (admissibleSamples freqs Pxx ≠ [] →
    ∃ (key : list Z) (t : Transcription),
      New' sampleBlock sampleRate optSpectralAnalyser optVerbose
      = Ok (Some (mkFingerprint key (Buffer_Timestamp sampleBlock) None
                    (Some t))) ∧
      transcribe freqs Pxx = Ok (Some t) ∧
      length key = 12%nat)).
Proof.
  intros Ha Hmax. unfold New', New, New_with. rewrite Ha.
  cbn -[audioKey transcribe]. split.
  - intros Hlt. by rewrite transcribe_short.
  - intros Hle.
    assert (Hsome : ∀ t, transcribe freqs Pxx = Ok (Some t) →
              ∃ key, audioKey Sprintf_e sha1_Sum (Some t) = Some key ∧
                     length key = 12%nat).
    { intros t Ht. destruct (transcribe_wf freqs Pxx t Ht) as [Hwf _].
      exists (map (λ v, byte_of_int
                          (int_of_float
                             (Chroma_Strength v
                              / fold_left (λ maxPxx v,
                                             if Rgtb (Chroma_Strength v) maxPxx
                                             then Chroma_Strength v
                                             else maxPxx) t 0%R
                              * 8.0 + 0.5))) t).
      split; [reflexivity|]. rewrite length_map. apply Hwf. }
    destruct (transcribe_outcome freqs Pxx Hle Hmax)
      as [[Hnil Ht]|[Hne (t & Ht)]]; rewrite Ht; cbn -[audioKey].
    + split; [done|]. intros Hne. by destruct Hne.
    + destruct (Hsome t Ht) as (key & Hk & Hlen). rewrite Hk. split.
      * split; [done|]. intros Hnil. by destruct Hne.
      * intros _. by exists key, t.
Qed.

(** X20: the key of a fingerprint that [New] returns has twelve bytes
    between 0 and 8, and its byte for the pitch class of a loudest sample
    among those that passed both floors is 8. *)
Theorem New_key_peak (sampleBlock : Buffer)
    (sampleRate optSpectralAnalyser : Z) (optVerbose : bool)
    (freqs Pxx : list R) (fp : Fingerprint) :
  spectralAnalysis PwelchAnalysis OverlapAnalysis sampleBlock sampleRate
    optSpectralAnalyser = Ok (Pxx, freqs) →
  New' sampleBlock sampleRate optSpectralAnalyser optVerbose = Ok (Some fp) →
  length (Fingerprint_Key fp) = 12%nat ∧
  Forall (λ b, 0 <= b <= 8) (Fingerprint_Key fp) ∧
  ∃ f p, (f, p) ∈ admissibleSamples freqs Pxx ∧
         (∀ f' p', (f', p') ∈ admissibleSamples freqs Pxx → (p' <= p)%R) ∧
         Fingerprint_Key fp !! Z.to_nat (freqNote f) = Some 8.
Proof.
  intros Ha. unfold New', New, New_with. rewrite Ha.
  cbn -[audioKey transcribe].
  destruct (transcribe freqs Pxx) as [[t|]|] eqn:Ht; cbn -[audioKey];
    [|done..].
  destruct (transcribe_wf freqs Pxx t Ht) as (Hwf & c & Hc & Hcp).
  pose proof (maxPxx_fold t 0) as Hfold. cbv zeta in Hfold.
  set (m := fold_left (λ maxPxx v, if Rgtb (Chroma_Strength v) maxPxx
                                   then Chroma_Strength v else maxPxx) t 0%R)
    in *.
  destruct Hfold as (H0 & Hall & Hex).
  assert (Hm : (0 < m)%R).
  { rewrite Forall_forall in Hall. specialize (Hall c Hc).
    unfold LOWER_POWER_CUTOFF in Hcp. lra. }
  assert (Hmax : max_strength t m).
  { split; [done|]. destruct Hex as [E|Hex]; [lra|done]. }
  destruct (audioKey_general Sprintf_e sha1_Sum t m Hwf Hmax Hm)
    as (key & Hk & Hlen & _ & Hrange & Hpeak).
  rewrite Hk. intros H. injection H as <-. cbn [Fingerprint_Key].
  split; [done|]. split; [done|].
  destruct (tableInv_peak _ t m (transcribe_tableInv freqs Pxx t Ht) Hmax Hm)
    as (f & c' & Hin & Hle & Hc' & Hcm).
  exists f, m. split; [done|]. split; [done|]. by eapply Hpeak.
Qed.

(** X21: in the "topfreqs" branch, when there are no more powers than
    frequencies, nil is returned when fewer than [REQUIRED_CANDIDATES]
    samples pass both floors; otherwise the fingerprint carries the frame's
    timestamp, exactly [REQUIRED_CANDIDATES] candidates, the hash of their
    frequencies as key, and no transcription. *)
Theorem top_pipeline_requires_four (sampleBlock : Buffer)
    (sampleRate optSpectralAnalyser : Z) (optVerbose : bool)
    (freqs Pxx : list R) :
  spectralAnalysis PwelchAnalysis OverlapAnalysis sampleBlock sampleRate
    optSpectralAnalyser = Ok (Pxx, freqs) →
  (length Pxx ≤ length freqs)%nat →
  (Z.of_nat (length (admissibleSamples freqs Pxx)) < REQUIRED_CANDIDATES →
   NewWith' "topfreqs" sampleBlock sampleRate optSpectralAnalyser optVerbose
   = Ok None) ∧
  (REQUIRED_CANDIDATES <= Z.of_nat (length (admissibleSamples freqs Pxx)) →
   ∃ cs : candidates,
     getTopCandidates freqs Pxx = Ok (Some cs) ∧
     Z.of_nat (length cs) = REQUIRED_CANDIDATES ∧
     NewWith' "topfreqs" sampleBlock sampleRate optSpectralAnalyser optVerbose
     = Ok (Some (mkFingerprint (hashKey Sprintf_e sha1_Sum cs)
                   (Buffer_Timestamp sampleBlock) (Some cs) None))).
Proof.
  intros Ha Hle. unfold NewWith', New_with. rewrite Ha. simpl.
  unfold getTopCandidates. rewrite topLoop_spec by done. simpl.
  rewrite sort_Sort_length. unfold admissibleCandidates at 1 3 4 5.
  rewrite length_map. unfold REQUIRED_CANDIDATES. split; intros Hn.
  - apply Z.ltb_lt in Hn. by rewrite Hn.
  - apply Z.ltb_ge in Hn as Hn'. rewrite Hn'. simpl.
    set (cs := sort_Sort (sort_Reverse ByFreq_Less) _).
    assert (Hcs : Z.of_nat (length cs) = 4).
    { unfold cs. rewrite sort_Sort_length, length_take, sort_Sort_length.
      unfold admissibleCandidates. rewrite length_map. lia. }
    exists cs. split; [done|]. split; [done|].
    rewrite Hcs. reflexivity.
Qed.

End AssemblerOutcome.

Lemma New_outcome_witness :
  ((length [500%R] < length [440.0%R])%nat →
   New (λ b : R, b) (λ _ _, ([500%R], [440.0%R])) (λ _ _, ([], []))
     (λ _, EmptyString) (λ _, []) map_to_list 3%R 11025 SA_PWELCH false
   = Panic IndexOutOfRange) ∧
  ((length [440.0%R] ≤ length [500%R])%nat →
   (New (λ b : R, b) (λ _ _, ([500%R], [440.0%R])) (λ _ _, ([], []))
      (λ _, EmptyString) (λ _, []) map_to_list 3%R 11025 SA_PWELCH false
    = Ok None
    ↔ admissibleSamples [440.0%R] [500%R] = []) ∧
   (admissibleSamples [440.0%R] [500%R] ≠ [] →
    ∃ (key : list Z) (t : Transcription),
      New (λ b : R, b) (λ _ _, ([500%R], [440.0%R])) (λ _ _, ([], []))
        (λ _, EmptyString) (λ _, []) map_to_list 3%R 11025 SA_PWELCH false
      = Ok (Some (mkFingerprint key 3%R None (Some t))) ∧
      transcribe [440.0%R] [500%R] = Ok (Some t) ∧
      length key = 12%nat)).
Proof.
  apply (New_outcome (Buffer:=R) (λ b, b) (λ _ _, ([500%R], [440.0%R]))
           (λ _ _, ([], [])) (λ _, EmptyString) (λ _, []) map_to_list
           3%R 11025 SA_PWELCH false [440.0%R] [500%R]).
  - reflexivity.
  - unfold max_int64. simpl. lia.
Defined.

Lemma New_key_peak_witness :
  length [8; 0; 0; 0; 0; 0; 0; 0; 0; 0; 0; 0] = 12%nat ∧
  Forall (λ b, 0 <= b <= 8) [8; 0; 0; 0; 0; 0; 0; 0; 0; 0; 0; 0] ∧
  ∃ f p, (f, p) ∈ admissibleSamples [440.0%R] [500%R] ∧
         (∀ f' p', (f', p') ∈ admissibleSamples [440.0%R] [500%R] →
                   (p' <= p)%R) ∧
         [8; 0; 0; 0; 0; 0; 0; 0; 0; 0; 0; 0] !! Z.to_nat (freqNote f)
         = Some 8.
Proof.
  apply (New_key_peak (Buffer:=R) (λ b, b) (λ _ _, ([500%R], [440.0%R]))
           (λ _ _, ([], [])) (λ _, EmptyString) (λ _, []) map_to_list
           3%R 11025 SA_PWELCH false [440.0%R] [500%R]
           (mkFingerprint [8; 0; 0; 0; 0; 0; 0; 0; 0; 0; 0; 0] 3%R None
              (Some (mkChroma A_NOTE 440 500 :: replicate 11 zeroChroma)))).
  - reflexivity.
  - apply New_single_440.
Defined.

Lemma top_pipeline_requires_four_witness :
  New_with (λ b : R, b) (λ _ _, ([50%R], [440%R])) (λ _ _, ([], []))
    (λ _, EmptyString) (λ _, []) map_to_list "topfreqs" 3%R 11025 SA_PWELCH
    false
  = Ok None ∧
  ∃ cs : candidates,
    getTopCandidates [100; 200; 300; 400; 500]%R [200; 300; 150; 50; 400]%R
    = Ok (Some cs) ∧
    Z.of_nat (length cs) = REQUIRED_CANDIDATES ∧
    New_with (λ b : R, b)
      (λ _ _, ([200; 300; 150; 50; 400]%R, [100; 200; 300; 400; 500]%R))
      (λ _ _, ([], [])) (λ _, EmptyString) (λ _, []) map_to_list "topfreqs"
      3%R 11025 SA_PWELCH false
    = Ok (Some (mkFingerprint (hashKey (λ _, EmptyString) (λ _, []) cs)
                  3%R (Some cs) None)).
Proof.
  split.
  - apply (proj1 (top_pipeline_requires_four (Buffer:=R) (λ b, b)
                    (λ _ _, ([50%R], [440%R])) (λ _ _, ([], []))
                    (λ _, EmptyString) (λ _, []) map_to_list 3%R 11025
                    SA_PWELCH false [440%R] [50%R] eq_refl
                    ltac:(simpl; lia))).
    cbn [admissibleSamples]. Rcompare_eval. unfold REQUIRED_CANDIDATES.
    simpl. lia.
  - apply (proj2 (top_pipeline_requires_four (Buffer:=R) (λ b, b)
                    (λ _ _, ([200; 300; 150; 50; 400]%R,
                             [100; 200; 300; 400; 500]%R))
                    (λ _ _, ([], [])) (λ _, EmptyString) (λ _, [])
                    map_to_list 3%R 11025 SA_PWELCH false
                    [100; 200; 300; 400; 500]%R [200; 300; 150; 50; 400]%R
                    eq_refl ltac:(simpl; lia))).
    cbn [admissibleSamples]. Rcompare_eval. unfold REQUIRED_CANDIDATES.
    simpl. lia.
Defined.
